(** * ipc-rules: subscription ref-counting, fan-out and request handlers

    A shallow embedding of [src/plugins/single_plugins/ipc-rules.cpp]:
    the [signal_registration_handler] reference counts, the [signal_map]
    catalog, the client registry with [on_client_watch] and
    [on_client_disconnected], the fan-out of [send_event_to_subscribes],
    and the [configure_view] and [configure_input_device] handlers. *)

From stdpp Require Import gmap strings list fin_maps.

Open Scope Z_scope.

Set Warnings "-register-all,-clear-no-such-hyp".

(** ** JSON values (nlohmann::json)

    Integers keep nlohmann's distinction between [number_integer] (a signed
    64-bit value) and [number_unsigned] (an unsigned 64-bit value, which is
    what the parser produces for a literal without a minus sign).  An object
    is a key-ordered map with unique keys; only look-ups by key are used here,
    so it is kept as an association list read by its first match. *)

Inductive json : Type :=
| JNull
| JBool (b : bool)
| JInt (i : Z)
| JUnsigned (u : Z)
| JFloat (mantissa exponent : Z)
| JString (s : string)
| JArray (items : list json)
| JObject (fields : list (string * json)).

Definition is_string (j : json) : bool :=
  match j with JString _ => true | _ => false end.

Definition is_array (j : json) : bool :=
  match j with JArray _ => true | _ => false end.

Definition is_object (j : json) : bool :=
  match j with JObject _ => true | _ => false end.

Definition is_boolean (j : json) : bool :=
  match j with JBool _ => true | _ => false end.

(** [is_number_integer] accepts both integer representations,
    [is_number_unsigned] only the unsigned one. *)
Definition is_number_integer (j : json) : bool :=
  match j with JInt _ | JUnsigned _ => true | _ => false end.

Definition is_number_unsigned (j : json) : bool :=
  match j with JUnsigned _ => true | _ => false end.

Fixpoint assoc (key : string) (fields : list (string * json)) : option json :=
  match fields with
  | [] => None
  | (k, v) :: rest => if decide (k = key) then Some v else assoc key rest
  end.

(** [data.count(key)] / [data.contains(key)]: false on anything that is not
    an object. *)
Definition json_get (data : json) (key : string) : option json :=
  match data with
  | JObject fields => assoc key fields
  | _ => None
  end.

Definition contains (data : json) (key : string) : bool :=
  match json_get data key with Some _ => true | None => false end.

(** [data[key]]; a key that is absent reads as null. *)
Definition at_key (data : json) (key : string) : json :=
  match json_get data key with Some v => v | None => JNull end.

(** The elements a range-for over a json value visits. *)
Definition json_items (j : json) : list json :=
  match j with
  | JNull => []
  | JArray items => items
  | JObject fields => fields.*2
  | other => [other]
  end.

(** Two's-complement reading of an unsigned 64-bit value, as performed by
    [static_cast<int64_t>] when nlohmann compares an integer with an
    unsigned number. *)
Definition to_int64 (u : Z) : Z :=
  let r := u `mod` 2 ^ 64 in
  if decide (r < 2 ^ 63) then r else r - 2 ^ 64.

(** [intptr == json]: the left operand becomes a [number_integer]. *)
Definition intptr_eq_json (p : Z) (j : json) : bool :=
  match j with
  | JInt i => bool_decide (p = i)
  | JUnsigned u => bool_decide (p = to_int64 u)
  | _ => false
  end.

(** ** Responses and field checks (plugins/ipc/ipc-helpers.hpp) *)

Definition dquote : string := String (Ascii.ascii_of_nat 34) EmptyString.

(** Modelled from the spec: [json_ok] of ipc-helpers.hpp is not among the
    sources; a bare success is the envelope [{"result":"ok"}]. *)
Definition json_ok : json := JObject [("result", JString "ok")]%string.

(** Modelled from the spec: [json_error] of ipc-helpers.hpp is not among the
    sources; an error is the envelope [{"result":"error","error":<message>}]. *)
Definition json_error (msg : string) : json :=
  JObject [("result", JString "error"); ("error", JString msg)]%string.

Definition is_error (response : json) : bool :=
  match json_get response "result" with
  | Some (JString r) => bool_decide (r = "error"%string)
  | _ => false
  end.

(** The two messages of the field checks: they name the field. *)
Definition missing_field_error (field : string) : json :=
  json_error ("Missing " +:+ dquote +:+ field +:+ dquote).

Definition wrong_type_error (field type : string) : json :=
  json_error ("Field " +:+ dquote +:+ field +:+ dquote +:+
              " does not have the correct type " +:+ type).

(** Modelled from the spec: the macro [WFJSON_EXPECT_FIELD] of
    ipc-helpers.hpp is not among the sources.  A required field that is
    missing, or present with the wrong JSON type, short-circuits the handler
    with an error naming the field.  The result is [Some error] when the
    handler returns early. *)
Definition WFJSON_EXPECT_FIELD (data : json) (field : string)
    (is_type : json → bool) (type : string) : option json :=
  match json_get data field with
  | None => Some (missing_field_error field)
  | Some v => if is_type v then None else Some (wrong_type_error field type)
  end.

(** Modelled from the spec: the macro [WFJSON_OPTIONAL_FIELD] of
    ipc-helpers.hpp is not among the sources.  An optional field that is
    present with the wrong JSON type is rejected the same way; an absent one
    passes. *)
Definition WFJSON_OPTIONAL_FIELD (data : json) (field : string)
    (is_type : json → bool) (type : string) : option json :=
  match json_get data field with
  | None => None
  | Some v => if is_type v then None else Some (wrong_type_error field type)
  end.

(** ** The host: outputs, signal connections, client transport *)

(** [wf::output_t*] and [wf::ipc::client_interface_t*] are used as
    identities only. *)
Definition output_t := nat.
Definition client_interface_t := nat.

(** The seventeen [wf::signal::connection_t] members of the plugin. *)
Inductive connection_t : Type :=
| on_view_mapped
| on_view_unmapped
| on_view_set_output
| on_view_geometry_changed
| on_view_moved_to_wset
| on_kbfocus_changed
| on_title_changed
| on_app_id_changed
| on_plugin_activation_changed
| on_output_gain_focus
| _tiled
| _minimized
| _fullscreened
| _stickied
| _view_workspace
| on_wset_changed
| on_wset_workspace_changed.

(** A signal provider is the core or one output. *)
Inductive provider_t : Type :=
| core_provider
| output_provider (wo : output_t).

#[global] Instance connection_t_eq_dec : EqDecision connection_t.
Proof. solve_decision. Defined.

#[global] Instance provider_t_eq_dec : EqDecision provider_t.
Proof. solve_decision. Defined.

(** Modelled from the spec: the signal provider (wayfire/signal-provider.hpp),
    the output layout and the client transport are not among the sources.
    [connections] lists the live attachments, one entry per call of
    [connect] that has not been undone by a [disconnect] of that connection
    or by the removal of its output; [outbox] logs every [send_json]. *)
Record host_t : Type := {
  get_outputs : list output_t;
  connections : list (connection_t * provider_t);
  outbox : list (client_interface_t * json)
}.

(** Modelled from the spec: [provider_t::connect] is not among the sources;
    attaching adds one live attachment of the connection to the provider. *)
Definition connect (p : provider_t) (conn : connection_t) (w : host_t) : host_t :=
  {| get_outputs := get_outputs w;
     connections := connections w ++ [(conn, p)];
     outbox := outbox w |}.

(** Modelled from the spec: [connection_t::disconnect] is not among the
    sources; detaching removes the connection from every provider. *)
Definition disconnect (conn : connection_t) (w : host_t) : host_t :=
  {| get_outputs := get_outputs w;
     connections := filter (λ a, a.1 ≠ conn) (connections w);
     outbox := outbox w |}.

(** Modelled from the spec: [client_interface_t::send_json] is not among the
    sources; the transport is a log of what was sent to whom. *)
Definition send_json (client : client_interface_t) (data : json) (w : host_t) : host_t :=
  {| get_outputs := get_outputs w;
     connections := connections w;
     outbox := outbox w ++ [(client, data)] |}.

(** ** signal_registration_handler

    The three [std::function] members are kept as functions on the host.
    [connected_count] is an [int] (line 205); it is kept here as an integer
    that [increase_count] and [decrease_count] step without wrapping around.
    That is the arithmetic of the code as long as every count stays within
    [INT_MIN] and [INT_MAX] ([counts_in_int] below; [increase_count_int] and
    [decrease_count_int] are the two members on a 32-bit count, and
    [increase_count_int_agrees], [watch_within_int] and
    [disconnect_within_int] compare them with these).  Every property that
    depends on the counts staying in that range is stated for the runs in
    which they do, [reachable_int]. *)

Record signal_registration_handler : Type := {
  register_core : host_t → host_t;
  register_output : output_t → host_t → host_t;
  unregister : host_t → host_t;
  connected_count : Z
}.

Definition with_count (h : signal_registration_handler) (n : Z)
    : signal_registration_handler :=
  {| register_core := register_core h;
     register_output := register_output h;
     unregister := unregister h;
     connected_count := n |}.

(** The default member initialisers of the struct. *)
Definition default_handler : signal_registration_handler :=
  {| register_core := λ w, w;
     register_output := λ _ w, w;
     unregister := λ w, w;
     connected_count := 0 |}.

Definition increase_count (h : signal_registration_handler) (w : host_t)
    : signal_registration_handler * host_t :=
  let h := with_count h (connected_count h + 1) in
  if decide (connected_count h > 1) then (h, w)
  else
    let w := register_core h w in
    (h, foldl (λ acc wo, register_output h wo acc) w (get_outputs w)).

Definition decrease_count (h : signal_registration_handler) (w : host_t)
    : signal_registration_handler * host_t :=
  let h := with_count h (connected_count h - 1) in
  if decide (connected_count h > 0) then (h, w)
  else (h, unregister h w).

Definition get_generic_core_registration_cb (conn : connection_t)
    : signal_registration_handler :=
  {| register_core := connect core_provider conn;
     register_output := register_output default_handler;
     unregister := disconnect conn;
     connected_count := 0 |}.

Definition get_generic_output_registration_cb (conn : connection_t)
    : signal_registration_handler :=
  {| register_core := register_core default_handler;
     register_output := λ wo, connect (output_provider wo) conn;
     unregister := disconnect conn;
     connected_count := 0 |}.

(** ** The plugin state *)

Record ipc_rules_t : Type := {
  signal_map : gmap string signal_registration_handler;
  clients : gmap client_interface_t (gset string);
  core : host_t
}.

Definition signal_map_init : gmap string signal_registration_handler :=
  list_to_map [
    ("view-mapped", get_generic_core_registration_cb on_view_mapped);
    ("view-unmapped", get_generic_core_registration_cb on_view_unmapped);
    ("view-set-output", get_generic_core_registration_cb on_view_set_output);
    ("view-geometry-changed", get_generic_core_registration_cb on_view_geometry_changed);
    ("view-wset-changed", get_generic_core_registration_cb on_view_moved_to_wset);
    ("view-focused", get_generic_core_registration_cb on_kbfocus_changed);
    ("view-title-changed", get_generic_core_registration_cb on_title_changed);
    ("view-app-id-changed", get_generic_core_registration_cb on_app_id_changed);
    ("plugin-activation-state-changed",
       get_generic_core_registration_cb on_plugin_activation_changed);
    ("output-gain-focus", get_generic_core_registration_cb on_output_gain_focus);

    ("view-tiled", get_generic_output_registration_cb _tiled);
    ("view-minimized", get_generic_output_registration_cb _minimized);
    ("view-fullscreened", get_generic_output_registration_cb _fullscreened);
    ("view-sticky", get_generic_output_registration_cb _stickied);
    ("view-workspace-changed", get_generic_output_registration_cb _view_workspace);
    ("output-wset-changed", get_generic_output_registration_cb on_wset_changed);
    ("wset-workspace-changed", get_generic_output_registration_cb on_wset_workspace_changed)
  ]%string.

(** [signal_map[ev_name]]: a missing key is default-constructed. *)
Definition signal_map_at (s : ipc_rules_t) (ev_name : string)
    : signal_registration_handler :=
  default default_handler (signal_map s !! ev_name).

(** [signal_map[ev_name].increase_count()] *)
Definition signal_increase (s : ipc_rules_t) (ev_name : string) : ipc_rules_t :=
  let '(h, w) := increase_count (signal_map_at s ev_name) (core s) in
  {| signal_map := <[ev_name := h]> (signal_map s);
     clients := clients s;
     core := w |}.

(** [signal_map[ev_name].decrease_count()] *)
Definition signal_decrease (s : ipc_rules_t) (ev_name : string) : ipc_rules_t :=
  let '(h, w) := decrease_count (signal_map_at s ev_name) (core s) in
  {| signal_map := <[ev_name := h]> (signal_map s);
     clients := clients s;
     core := w |}.

(** ** events/watch and client disconnect *)

Definition EVENTS : string := "events".

(** The loop over [data[EVENTS]]: [None] when an entry is not a string. *)
Fixpoint collect_events (sm : gmap string signal_registration_handler)
    (subs : list json) (subscribed_to : gset string) : option (gset string) :=
  match subs with
  | [] => Some subscribed_to
  | JString name :: rest =>
      collect_events sm rest
        (if sm !! name is Some _ then {[name]} ∪ subscribed_to else subscribed_to)
  | _ :: _ => None
  end.

(** The set [subscribed_to] the handler builds: [None] when it returns the
    non-string error. *)
Definition requested_events (data : json)
    (sm : gmap string signal_registration_handler) : option (gset string) :=
  if contains data EVENTS
  then collect_events sm (json_items (at_key data EVENTS)) ∅
  else Some (dom sm).

(** The two statements after the set is built: count every name, then
    store the set under the client.  The set is walked in the order of
    [elements]; the order only decides in which order attachments are
    appended to [connections]. *)
Definition subscribe (client : client_interface_t) (subscribed_to : gset string)
    (s : ipc_rules_t) : ipc_rules_t :=
  let s := foldl signal_increase s (elements subscribed_to) in
  {| signal_map := signal_map s;
     clients := <[client := subscribed_to]> (clients s);
     core := core s |}.

Definition on_client_watch (data : json) (client : client_interface_t)
    (s : ipc_rules_t) : json * ipc_rules_t :=
  match WFJSON_OPTIONAL_FIELD data EVENTS is_array "array" with
  | Some err => (err, s)
  | None =>
      match requested_events data (signal_map s) with
      | None => (json_error "Event list contains non-string entries!", s)
      | Some subscribed_to => (json_ok, subscribe client subscribed_to s)
      end
  end.

(** [clients[ev->client]] default-constructs an empty set for a client that
    never watched; the entry is erased at the end either way. *)
Definition on_client_disconnected (client : client_interface_t)
    (s : ipc_rules_t) : ipc_rules_t :=
  let s := foldl signal_decrease s (elements (default ∅ (clients s !! client))) in
  {| signal_map := signal_map s;
     clients := delete client (clients s);
     core := core s |}.

(** ** Fan-out

    The clients are visited in the order of [map_to_list]; the source visits
    them in the order of their addresses, which is as arbitrary. *)

Definition wants (events : gset string) (event_name : string) : bool :=
  bool_decide (events = ∅) || bool_decide (event_name ∈ events).

Definition send_event_to_subscribes (data : json) (event_name : string)
    (s : ipc_rules_t) : ipc_rules_t :=
  {| signal_map := signal_map s;
     clients := clients s;
     core :=
       foldl (λ w entry,
                if wants entry.2 event_name then send_json entry.1 data w else w)
             (core s) (map_to_list (clients s)) |}.

(** The payload of an event: the ["event"] key followed by the serialised
    entities.  The serialisers ([view_to_json], [output_to_json],
    [wset_to_json]) only read host objects and are left to the caller. *)
Definition event_json (event_name : string) (fields : list (string * json)) : json :=
  JObject (("event"%string, JString event_name) :: fields).

Definition send_view_to_subscribes (view_json : json) (event_name : string)
    (s : ipc_rules_t) : ipc_rules_t :=
  send_event_to_subscribes (event_json event_name [("view"%string, view_json)])
    event_name s.

(** The name under which the callback of each connection publishes. *)
Definition published_name (conn : connection_t) : string :=
  match conn with
  | on_view_mapped => "view-mapped"
  | on_view_unmapped => "view-unmapped"
  | on_view_set_output => "view-set-output"
  | on_view_geometry_changed => "view-geometry-changed"
  | on_view_moved_to_wset => "view-wset-changed"
  | on_kbfocus_changed => "view-focused"
  | on_title_changed => "view-title-changed"
  | on_app_id_changed => "view-app-id-changed"
  | on_plugin_activation_changed => "plugin-activation-state-changed"
  | on_output_gain_focus => "output-gain-focus"
  | _tiled => "view-tiled"
  | _minimized => "view-minimized"
  | _fullscreened => "view-fullscreen"
  | _stickied => "view-sticky"
  | _view_workspace => "view-workspace-changed"
  | on_wset_changed => "output-wset-changed"
  | on_wset_workspace_changed => "wset-workspace-changed"
  end.

(** The body of a connection's callback; [fields] are the serialised
    entities the callback puts next to the event name. *)
Definition callback (conn : connection_t) (fields : list (string * json))
    (s : ipc_rules_t) : ipc_rules_t :=
  send_event_to_subscribes (event_json (published_name conn) fields)
    (published_name conn) s.

(** ** Output tracking *)

Definition handle_new_output (output : output_t) (output_json : json)
    (s : ipc_rules_t) : ipc_rules_t :=
  let w :=
    foldl (λ w entry,
             if decide (connected_count entry.2 ≠ 0)
             then register_output entry.2 output w else w)
          (core s) (map_to_list (signal_map s)) in
  send_event_to_subscribes
    (event_json "output-added" [("output"%string, output_json)]) "output-added"
    {| signal_map := signal_map s; clients := clients s; core := w |}.

Definition handle_output_removed (output : output_t) (output_json : json)
    (s : ipc_rules_t) : ipc_rules_t :=
  send_event_to_subscribes
    (event_json "output-removed" [("output"%string, output_json)]) "output-removed" s.

(** ** Host events *)

(** Modelled from the spec: the output layout is not among the sources.  A
    new output joins the layout and is announced through
    [handle_new_output]. *)
Definition output_added (wo : output_t) (output_json : json)
    (s : ipc_rules_t) : ipc_rules_t :=
  handle_new_output wo output_json
    {| signal_map := signal_map s;
       clients := clients s;
       core := {| get_outputs := get_outputs (core s) ++ [wo];
                  connections := connections (core s);
                  outbox := outbox (core s) |} |}.

(** Modelled from the spec: the output layout is not among the sources.  A
    removed output is announced through [handle_output_removed] and then
    destroyed, which drops the connections made to it (the plugin does not
    detach them itself). *)
Definition output_removed (wo : output_t) (output_json : json)
    (s : ipc_rules_t) : ipc_rules_t :=
  let s := handle_output_removed wo output_json s in
  {| signal_map := signal_map s;
     clients := clients s;
     core := {| get_outputs := filter (λ o, o ≠ wo) (get_outputs (core s));
                connections :=
                  filter (λ a, a.2 ≠ output_provider wo) (connections (core s));
                outbox := outbox (core s) |} |}.

(** The number of live attachments of a connection to a provider. *)
Definition attachments (p : provider_t) (conn : connection_t) (w : host_t) : nat :=
  length (filter (λ a, a = (conn, p)) (connections w)).

(** Modelled from the spec: [provider_t::emit] is not among the sources;
    emitting a signal on a provider runs the callback of a connection once
    per attachment of it to that provider. *)
Definition emit (p : provider_t) (conn : connection_t)
    (fields : list (string * json)) (s : ipc_rules_t) : ipc_rules_t :=
  Nat.iter (attachments p conn (core s)) (callback conn fields) s.

Definition initial_state : ipc_rules_t :=
  {| signal_map := signal_map_init;
     clients := ∅;
     core := {| get_outputs := []; connections := []; outbox := [] |} |}.

(** One turn of the event loop. *)
Inductive step : ipc_rules_t → ipc_rules_t → Prop :=
| step_watch data client s :
    step s (on_client_watch data client s).2
| step_disconnect client s :
    step s (on_client_disconnected client s)
| step_output_added wo output_json s :
    wo ∉ get_outputs (core s) →
    step s (output_added wo output_json s)
| step_output_removed wo output_json s :
    wo ∈ get_outputs (core s) →
    step s (output_removed wo output_json s)
| step_emit p conn fields s :
    step s (emit p conn fields s).

Definition reachable (s : ipc_rules_t) : Prop := rtc step initial_state s.

(** Helpers to read a state. *)

Definition events_of (names : list string) : json :=
  JObject [(EVENTS, JArray (JString <$> names))].

Definition count_of (s : ipc_rules_t) (ev_name : string) : option Z :=
  connected_count <$> signal_map s !! ev_name.

(** The clients a call of [send_event_to_subscribes] sends to: the
    [send_json] calls it adds to the outbox. *)
Definition recipients (event_name : string) (s : ipc_rules_t)
    : list client_interface_t :=
  (filter (λ entry, wants entry.2 event_name = true) (map_to_list (clients s))).*1.

(** ** The range of [int]

    A 32-bit [int] holds the values from [INT_MIN] to [INT_MAX].  A run stays
    in range when every state it passes through has all its counts there; one
    handler call steps a count by at most one, so the counts in between two
    states of a run are in range as well. *)

Definition INT_MIN : Z := - 2 ^ 31.
Definition INT_MAX : Z := 2 ^ 31 - 1.

Definition counts_in_int (s : ipc_rules_t) : Prop :=
  map_Forall (λ _ h, INT_MIN ≤ connected_count h ≤ INT_MAX) (signal_map s).

Definition int_step (s s' : ipc_rules_t) : Prop := step s s' ∧ counts_in_int s'.

Definition reachable_int (s : ipc_rules_t) : Prop := rtc int_step initial_state s.

(** The two members of [signal_registration_handler] on a 32-bit count.
    The language leaves [++] past [INT_MAX] and [--] past [INT_MIN]
    undefined; they are written here with the two's-complement wrap-around
    of the compiled code.  Nothing below depends on that choice except
    [increase_count_int_overflow]: within the range there is no overflow. *)
Definition int_wrap (z : Z) : Z := (z - INT_MIN) `mod` 2 ^ 32 + INT_MIN.

Definition increase_count_int (h : signal_registration_handler) (w : host_t)
    : signal_registration_handler * host_t :=
  let h := with_count h (int_wrap (connected_count h + 1)) in
  if decide (connected_count h > 1) then (h, w)
  else
    let w := register_core h w in
    (h, foldl (λ acc wo, register_output h wo acc) w (get_outputs w)).

Definition decrease_count_int (h : signal_registration_handler) (w : host_t)
    : signal_registration_handler * host_t :=
  let h := with_count h (int_wrap (connected_count h - 1)) in
  if decide (connected_count h > 0) then (h, w)
  else (h, unregister h w).

(** [signal_map[ev_name].increase_count()] and
    [signal_map[ev_name].decrease_count()] on 32-bit counts. *)
Definition signal_increase_int (s : ipc_rules_t) (ev_name : string) : ipc_rules_t :=
  let '(h, w) := increase_count_int (signal_map_at s ev_name) (core s) in
  {| signal_map := <[ev_name := h]> (signal_map s);
     clients := clients s;
     core := w |}.

Definition signal_decrease_int (s : ipc_rules_t) (ev_name : string) : ipc_rules_t :=
  let '(h, w) := decrease_count_int (signal_map_at s ev_name) (core s) in
  {| signal_map := <[ev_name := h]> (signal_map s);
     clients := clients s;
     core := w |}.

(** ** window-rules/configure-view *)

Section configure_view.

(** The object model behind the handler: [wf::ipc::find_view_by_id],
    [wf::toplevel_cast], [wf::ipc::find_output_by_id],
    [wf::ipc::geometry_from_json], [wf::move_view_to_output] and the
    setters of the toplevel view are declared outside the plugin. *)
Context {desktop_t view_t toplevel_t geometry_t : Type}.
Variable find_view_by_id : json → desktop_t → option view_t.
Variable toplevel_cast : view_t → option toplevel_t.
Variable find_output_by_id : json → desktop_t → option output_t.
Variable geometry_from_json : json → option geometry_t.
Variable move_view_to_output : toplevel_t → output_t → bool → desktop_t → desktop_t.
Variable set_geometry : toplevel_t → geometry_t → desktop_t → desktop_t.
Variable set_sticky : toplevel_t → json → desktop_t → desktop_t.

(** The three optional blocks, each returning early with an error or
    handing the desktop on. *)
Definition configure_output (data : json) (toplevel : toplevel_t)
    (d : desktop_t) : json + desktop_t :=
  if contains data "output_id" then
    match find_output_by_id (at_key data "output_id") d with
    | None => inl (json_error "output not found")
    | Some wo =>
        inr (move_view_to_output toplevel wo (negb (contains data "geometry")) d)
    end
  else inr d.

Definition configure_geometry (data : json) (toplevel : toplevel_t)
    (d : desktop_t) : json + desktop_t :=
  if contains data "geometry" then
    match geometry_from_json (at_key data "geometry") with
    | None => inl (json_error "invalid geometry")
    | Some geometry => inr (set_geometry toplevel geometry d)
    end
  else inr d.

Definition configure_sticky (data : json) (toplevel : toplevel_t)
    (d : desktop_t) : desktop_t :=
  if contains data "sticky" then set_sticky toplevel (at_key data "sticky") d
  else d.

Definition configure_view (data : json) (d : desktop_t) : json * desktop_t :=
  match WFJSON_EXPECT_FIELD data "id" is_number_integer "number_integer" with
  | Some err => (err, d)
  | None =>
  match WFJSON_OPTIONAL_FIELD data "output_id" is_number_integer "number_integer" with
  | Some err => (err, d)
  | None =>
  match WFJSON_OPTIONAL_FIELD data "geometry" is_object "object" with
  | Some err => (err, d)
  | None =>
  match WFJSON_OPTIONAL_FIELD data "sticky" is_boolean "boolean" with
  | Some err => (err, d)
  | None =>
  match find_view_by_id (at_key data "id") d with
  | None => (json_error "view not found", d)
  | Some view =>
  match toplevel_cast view with
  | None => (json_error "view is not toplevel", d)
  | Some toplevel =>
  match configure_output data toplevel d with
  | inl err => (err, d)
  | inr d1 =>
  match configure_geometry data toplevel d1 with
  | inl err => (err, d1)
  | inr d2 => (json_ok, configure_sticky data toplevel d2)
  end end end end end end end end.

End configure_view.

(** Whether the three optional fields of configure-view pass their type
    checks. *)
Definition optional_fields_ok (data : json) : bool :=
  bool_decide
    (WFJSON_OPTIONAL_FIELD data "output_id" is_number_integer "number_integer" = None ∧
     WFJSON_OPTIONAL_FIELD data "geometry" is_object "object" = None ∧
     WFJSON_OPTIONAL_FIELD data "sticky" is_boolean "boolean" = None).

(** ** input/configure-device *)

(** Modelled from the spec: [wf::input_device_t] is not among the sources; a
    device has the address of its wlroots handle, read as an [intptr_t], and
    an enabled flag that [set_enabled] overwrites. *)
Record input_device_t : Type := {
  get_wlr_handle : Z;
  is_enabled : bool
}.

Definition json_bool (j : json) : bool :=
  match j with JBool b => b | _ => false end.

(** Modelled from the spec: [input_device_t::set_enabled] is not among the
    sources; it enables or disables the device. *)
Definition set_enabled (enabled : bool) (device : input_device_t) : input_device_t :=
  {| get_wlr_handle := get_wlr_handle device; is_enabled := enabled |}.

(** The loop over [get_input_devices()]: the first device whose handle equals
    [data["id"]] is updated; [None] when the loop falls through. *)
Fixpoint configure_first (data : json) (devices : list input_device_t)
    : option (list input_device_t) :=
  match devices with
  | [] => None
  | device :: rest =>
      if intptr_eq_json (get_wlr_handle device) (at_key data "id")
      then Some (set_enabled (json_bool (at_key data "enabled")) device :: rest)
      else (device ::.) <$> configure_first data rest
  end.

Definition configure_input_device (data : json) (devices : list input_device_t)
    : json * list input_device_t :=
  match WFJSON_EXPECT_FIELD data "id" is_number_unsigned "number_unsigned" with
  | Some err => (err, devices)
  | None =>
  match WFJSON_EXPECT_FIELD data "enabled" is_boolean "boolean" with
  | Some err => (err, devices)
  | None =>
  match configure_first data devices with
  | Some devices' => (json_ok, devices')
  | None => (json_error "Unknown input device!", devices)
  end end end.

(** ** The catalog *)

(** The key under which each connection is registered in [signal_map], and
    whether it is registered per output. *)
Definition catalog_name (conn : connection_t) : string :=
  match conn with
  | on_view_mapped => "view-mapped"
  | on_view_unmapped => "view-unmapped"
  | on_view_set_output => "view-set-output"
  | on_view_geometry_changed => "view-geometry-changed"
  | on_view_moved_to_wset => "view-wset-changed"
  | on_kbfocus_changed => "view-focused"
  | on_title_changed => "view-title-changed"
  | on_app_id_changed => "view-app-id-changed"
  | on_plugin_activation_changed => "plugin-activation-state-changed"
  | on_output_gain_focus => "output-gain-focus"
  | _tiled => "view-tiled"
  | _minimized => "view-minimized"
  | _fullscreened => "view-fullscreened"
  | _stickied => "view-sticky"
  | _view_workspace => "view-workspace-changed"
  | on_wset_changed => "output-wset-changed"
  | on_wset_workspace_changed => "wset-workspace-changed"
  end.

Definition per_output (conn : connection_t) : bool :=
  match conn with
  | _tiled | _minimized | _fullscreened | _stickied | _view_workspace
  | on_wset_changed | on_wset_workspace_changed => true
  | _ => false
  end.

Definition registration (conn : connection_t) : signal_registration_handler :=
  if per_output conn then get_generic_output_registration_cb conn
  else get_generic_core_registration_cb conn.

Definition all_connections : list connection_t :=
  [on_view_mapped; on_view_unmapped; on_view_set_output; on_view_geometry_changed;
   on_view_moved_to_wset; on_kbfocus_changed; on_title_changed; on_app_id_changed;
   on_plugin_activation_changed; on_output_gain_focus;
   _tiled; _minimized; _fullscreened; _stickied; _view_workspace;
   on_wset_changed; on_wset_workspace_changed].

(** The scopes a live connection is attached to. *)
Definition scope_of (conn : connection_t) (p : provider_t) (outs : list output_t) : Prop :=
  if per_output conn then ∃ wo, p = output_provider wo ∧ wo ∈ outs
  else p = core_provider.

Definition fresh_attachments (conn : connection_t) (outs : list output_t)
    : list (connection_t * provider_t) :=
  if per_output conn then (λ wo, (conn, output_provider wo)) <$> outs
  else [(conn, core_provider)].

(** The number of registered clients whose stored set contains a name. *)
Definition holders (ev_name : string) (cl : gmap client_interface_t (gset string)) : Z :=
  Z.of_nat (size (filter (λ entry, ev_name ∈ entry.2) cl)).

(** The invariant that ties [signal_map] to the host: every catalog entry
    keeps its callbacks, its count is at least [need], and its connection is
    attached exactly to the scopes of a live entry, once each. *)
Definition tracked (need : string → Z)
    (sm : gmap string signal_registration_handler) (w : host_t) : Prop :=
  dom sm = dom signal_map_init ∧
  NoDup (get_outputs w) ∧
  NoDup (connections w) ∧
  ∀ conn, ∃ k,
    sm !! catalog_name conn = Some (with_count (registration conn) k) ∧
    0 ≤ need (catalog_name conn) ≤ k ∧
    ∀ p, (conn, p) ∈ connections w ↔ 0 < k ∧ scope_of conn p (get_outputs w).

(** The invariant of the plugin: the counts cover the holders of each name,
    and every stored set is made of catalog names. *)
Definition consistent (s : ipc_rules_t) : Prop :=
  tracked (λ n, holders n (clients s)) (signal_map s) (core s) ∧
  ∀ c events, clients s !! c = Some events → events ⊆ dom signal_map_init.

(** ** Sample runs *)

(** A small desktop on which configure-view can be run, a device list, and
    a few runs of the plugin from its initial state. *)
Module Sample.

Record geometry_t : Type := { x : Z; y : Z; width : Z; height : Z }.

(** Modelled from the spec: the view objects are not among the sources; a
    view carries the output it is on, a geometry and the sticky flag. *)
Record view_state : Type := {
  toplevel : bool;
  output : output_t;
  geometry : geometry_t;
  sticky : bool
}.

Record desktop_t : Type := {
  views : gmap Z view_state;
  outputs : list output_t
}.

Definition json_integer (j : json) : option Z :=
  match j with JInt i | JUnsigned i => Some i | _ => None end.

(** Modelled from the spec: [wf::ipc::find_view_by_id] is not among the
    sources; a view is found by its integer id, and is known to be a toplevel
    or not. *)
Definition find_view_by_id (id : json) (d : desktop_t) : option (Z * bool) :=
  i ← json_integer id; v ← views d !! i; Some (i, toplevel v).

(** Modelled from the spec: [wf::toplevel_cast] is not among the sources. *)
Definition toplevel_cast (view : Z * bool) : option Z :=
  if view.2 then Some view.1 else None.

(** Modelled from the spec: [wf::ipc::find_output_by_id] is not among the
    sources; an output is found by its integer id. *)
Definition find_output_by_id (id : json) (d : desktop_t) : option output_t :=
  i ← json_integer id;
  if decide (0 ≤ i ∧ Z.to_nat i ∈ outputs d) then Some (Z.to_nat i) else None.

Definition integer_field (j : json) (key : string) : option Z :=
  v ← json_get j key; json_integer v.

(** Modelled from the spec: [wf::ipc::geometry_from_json] is not among the
    sources; a geometry is an object with the integer fields x, y, width and
    height, anything else is no geometry. *)
Definition geometry_from_json (j : json) : option geometry_t :=
  gx ← integer_field j "x"; gy ← integer_field j "y";
  gw ← integer_field j "width"; gh ← integer_field j "height";
  Some {| x := gx; y := gy; width := gw; height := gh |}.

(** Modelled from the spec: [wf::move_view_to_output] is not among the
    sources; the view is recorded on its new output. *)
Definition move_view_to_output (view : Z) (wo : output_t) (reconfigure : bool)
    (d : desktop_t) : desktop_t :=
  {| views := alter (λ v, {| toplevel := toplevel v; output := wo;
                             geometry := geometry v; sticky := sticky v |})
                    view (views d);
     outputs := outputs d |}.

(** Modelled from the spec: [toplevel_view_interface_t::set_geometry] is not
    among the sources. *)
Definition set_geometry (view : Z) (g : geometry_t) (d : desktop_t) : desktop_t :=
  {| views := alter (λ v, {| toplevel := toplevel v; output := output v;
                             geometry := g; sticky := sticky v |})
                    view (views d);
     outputs := outputs d |}.

(** Modelled from the spec: [toplevel_view_interface_t::set_sticky] is not
    among the sources. *)
Definition set_sticky (view : Z) (flag : json) (d : desktop_t) : desktop_t :=
  {| views := alter (λ v, {| toplevel := toplevel v; output := output v;
                             geometry := geometry v; sticky := json_bool flag |})
                    view (views d);
     outputs := outputs d |}.

Definition configure_view : json → desktop_t → json * desktop_t :=
  configure_view find_view_by_id toplevel_cast find_output_by_id geometry_from_json
    move_view_to_output set_geometry set_sticky.

(** One toplevel view, number 1, on output 0 of two outputs. *)
Definition desk : desktop_t :=
  {| views := {[ 1 := {| toplevel := true; output := 0%nat;
                         geometry := {| x := 0; y := 0; width := 640; height := 480 |};
                         sticky := false |} ]};
     outputs := [0%nat; 1%nat] |}.




Definition only_id : json := JObject [("id", JUnsigned 1)]%string.


Definition pointer : input_device_t := {| get_wlr_handle := 4096; is_enabled := true |}.

Definition toggle (id : json) : json :=
  JObject [("id", id); ("enabled", JBool false)]%string.

Definition absent : json := JObject [].

Definition alice : client_interface_t := 1%nat.

Definition watched_mapped : ipc_rules_t :=
  (on_client_watch (events_of ["view-mapped"%string]) alice initial_state).2.

Definition rewatched_tiled : ipc_rules_t :=
  (on_client_watch (events_of ["view-tiled"%string]) alice watched_mapped).2.

Definition rewatched_gone : ipc_rules_t :=
  on_client_disconnected alice rewatched_tiled.

Definition watched_absent : ipc_rules_t :=
  (on_client_watch absent alice initial_state).2.

Definition watched_empty : ipc_rules_t :=
  (on_client_watch (events_of []) alice initial_state).2.

Definition one_output : ipc_rules_t := output_added 0%nat JNull initial_state.

Definition watched_tiled : ipc_rules_t :=
  (on_client_watch (events_of ["view-tiled"%string]) alice one_output).2.

Definition watched_fullscreened : ipc_rules_t :=
  (on_client_watch (events_of ["view-fullscreened"%string]) alice initial_state).2.

End Sample.

(** ** More of the plugin *)

(** Every catalog entry still carries the callbacks it was built with; only
    its count has moved. *)
Definition shaped (sm : gmap string signal_registration_handler) : Prop :=
  ∀ conn, ∃ k, sm !! catalog_name conn = Some (with_count (registration conn) k).

(** ** Enumerations printed by the plugin

    The enumerations are declared by the host and by wlroots; each is kept
    with the enumerators the plugin names and one more constructor for any
    other value, which is what the [default] branches are for. *)

Inductive view_role_t : Type :=
| VIEW_ROLE_TOPLEVEL
| VIEW_ROLE_UNMANAGED
| VIEW_ROLE_DESKTOP_ENVIRONMENT
| VIEW_ROLE_other (value : Z).


Inductive layer : Type :=
| BACKGROUND
| BOTTOM
| WORKSPACE
| TOP
| UNMANAGED
| OVERLAY
| LOCK
| DWIDGET
| layer_other (value : Z).


Inductive wlr_input_device_type : Type :=
| WLR_INPUT_DEVICE_KEYBOARD
| WLR_INPUT_DEVICE_POINTER
| WLR_INPUT_DEVICE_TOUCH
| WLR_INPUT_DEVICE_TABLET_TOOL
| WLR_INPUT_DEVICE_TABLET_PAD
| WLR_INPUT_DEVICE_SWITCH
| WLR_INPUT_DEVICE_other (value : Z).

Definition wlr_input_device_type_to_string (type : wlr_input_device_type) : string :=
  match type with
  | WLR_INPUT_DEVICE_KEYBOARD => "keyboard"
  | WLR_INPUT_DEVICE_POINTER => "pointer"
  | WLR_INPUT_DEVICE_TOUCH => "touch"
  | WLR_INPUT_DEVICE_TABLET_TOOL => "tablet_tool"
  | WLR_INPUT_DEVICE_TABLET_PAD => "tablet_pad"
  | WLR_INPUT_DEVICE_SWITCH => "switch"
  | WLR_INPUT_DEVICE_other _ => "unknown"
  end.

#[global] Instance layer_eq_dec : EqDecision layer.
Proof. solve_decision. Defined.

(** [get_view_type]: [WF_HAS_XWAYLAND] is the build flag of config.h,
    [xwayland_surface] says whether the view has a surface that belongs to
    Xwayland, [view_layer] is what [wf::get_view_layer] returns. *)
Definition get_view_type (WF_HAS_XWAYLAND : bool) (role : view_role_t)
    (xwayland_surface : bool) (view_layer : option layer) : string :=
  match role with
  | VIEW_ROLE_TOPLEVEL => "toplevel"
  | VIEW_ROLE_UNMANAGED =>
      if WF_HAS_XWAYLAND && xwayland_surface then "x-or" else "unmanaged"
  | _ =>
      if bool_decide (view_layer = Some BACKGROUND) || bool_decide (view_layer = Some BOTTOM)
      then "background"
      else if bool_decide (view_layer = Some TOP) then "panel"
      else if bool_decide (view_layer = Some OVERLAY) then "overlay"
      else "unknown"
  end.

(** ** Building objects

    [j[key] = v]: a null value becomes an object with the one key, an object
    gets the key set or replaced.  (On any other value the library raises a
    type error; the plugin only assigns into null values and objects.) *)

Fixpoint assoc_set (key : string) (v : json) (fields : list (string * json))
    : list (string * json) :=
  match fields with
  | [] => [(key, v)]
  | (k, x) :: rest =>
      if decide (k = key) then (k, v) :: rest else (k, x) :: assoc_set key v rest
  end.

Definition json_set (j : json) (key : string) (v : json) : json :=
  match j with
  | JNull => JObject [(key, v)]
  | JObject fields => JObject (assoc_set key v fields)
  | other => other
  end.

(** ** input/list-devices *)

(** The fields of [struct wlr_input_device] the plugin reads through the
    handle; [vendor] and [product] are unsigned there. *)
Record wlr_input_device : Type := {
  wlr_name : option string;
  wlr_vendor : Z;
  wlr_product : Z;
  wlr_type : wlr_input_device_type
}.

Section list_input_devices.

(** The structure a handle points to, and the [nonull] macro of util.hpp,
    which stands in a string for a null name. *)
Variable deref : Z → wlr_input_device.
Variable nonull : option string → string.

(** The body of the loop: the object [d] of one device. *)
Definition device_json (device : input_device_t) : json :=
  let d := JNull in
  let d := json_set d "id" (JInt (get_wlr_handle device)) in
  let d := json_set d "name" (JString (nonull (wlr_name (deref (get_wlr_handle device))))) in
  let d := json_set d "vendor" (JUnsigned (wlr_vendor (deref (get_wlr_handle device)))) in
  let d := json_set d "product" (JUnsigned (wlr_product (deref (get_wlr_handle device)))) in
  let d := json_set d "type"
             (JString (wlr_input_device_type_to_string
                         (wlr_type (deref (get_wlr_handle device))))) in
  json_set d "enabled" (JBool (is_enabled device)).

Definition list_input_devices (devices : list input_device_t) : json :=
  JArray (device_json <$> devices).

End list_input_devices.

(** ** Handlers that look a view up by its id *)

Section view_handlers.

(** The object model behind the handlers.  [view_to_json] is the serialiser
    of the plugin; it reads the view through accessors whose types are
    declared by the host, and is taken as given here. *)
Context {desktop_t view_t toplevel_t : Type}.
Variable find_view_by_id : json → desktop_t → option view_t.
Variable toplevel_cast : view_t → option toplevel_t.
Variable view_to_json : view_t → desktop_t → json.
Variable focus_request : toplevel_t → desktop_t → desktop_t.
Variable close : view_t → desktop_t → desktop_t.

Definition get_view_info (data : json) (d : desktop_t) : json :=
  match WFJSON_EXPECT_FIELD data "id" is_number_integer "number_integer" with
  | Some err => err
  | None =>
      match find_view_by_id (at_key data "id") d with
      | Some view =>
          let response := json_ok in
          json_set response "info" (view_to_json view d)
      | None => json_error "no such view"
      end
  end.

Definition focus_view (data : json) (d : desktop_t) : json * desktop_t :=
  match WFJSON_EXPECT_FIELD data "id" is_number_integer "number_integer" with
  | Some err => (err, d)
  | None =>
      match find_view_by_id (at_key data "id") d with
      | Some view =>
          let response := json_ok in
          match toplevel_cast view with
          | None => (json_error "view is not toplevel", d)
          | Some toplevel => (response, focus_request toplevel d)
          end
      | None => (json_error "no such view", d)
      end
  end.

Definition close_view (data : json) (d : desktop_t) : json * desktop_t :=
  match WFJSON_EXPECT_FIELD data "id" is_number_integer "number_integer" with
  | Some err => (err, d)
  | None =>
      match find_view_by_id (at_key data "id") d with
      | Some view =>
          let response := json_ok in
          (response, close view d)
      | None => (json_error "no such view", d)
      end
  end.

End view_handlers.

(** ** init and fini *)

(** The callbacks the plugin registers. *)
Module Method.

Inductive t : Type :=
| get_wayfire_configuration_info
| list_input_devices
| configure_input_device
| on_client_watch
| list_views
| list_outputs
| list_wsets
| get_view_info
| get_output_info
| get_wset_info
| configure_view
| focus_view
| get_focused_view
| get_focused_output
| close_view.

End Method.

(** Modelled from the spec: [method_repository_t::register_method] is not
    among the sources; registering stores the handler under the name, and
    fails fatally on a name that is already registered.  [None] is the fatal
    failure. *)
Definition register_method (name : string) (handler : Method.t)
    (repo : gmap string Method.t) : option (gmap string Method.t) :=
  match repo !! name with
  | Some _ => None
  | None => Some (<[name := handler]> repo)
  end.

(** Modelled from the spec: [method_repository_t::unregister_method] is not
    among the sources; unregistering removes the entry of the name, if any. *)
Definition unregister_method (name : string) (repo : gmap string Method.t)
    : gmap string Method.t :=
  delete name repo.

(** The [register_method] calls of [init], in their order. *)
Definition init_methods : list (string * Method.t) :=
  [ ("wayfire/configuration", Method.get_wayfire_configuration_info);
    ("input/list-devices", Method.list_input_devices);
    ("input/configure-device", Method.configure_input_device);
    ("window-rules/events/watch", Method.on_client_watch);
    ("window-rules/list-views", Method.list_views);
    ("window-rules/list-outputs", Method.list_outputs);
    ("window-rules/list-wsets", Method.list_wsets);
    ("window-rules/view-info", Method.get_view_info);
    ("window-rules/output-info", Method.get_output_info);
    ("window-rules/wset-info", Method.get_wset_info);
    ("window-rules/configure-view", Method.configure_view);
    ("window-rules/focus-view", Method.focus_view);
    ("window-rules/get-focused-view", Method.get_focused_view);
    ("window-rules/get-focused-output", Method.get_focused_output);
    ("window-rules/close-view", Method.close_view) ]%string.

(** The [unregister_method] calls of [fini], in their order. *)
Definition fini_methods : list string :=
  [ "wayfire/configuration";
    "input/list-devices";
    "input/configure-device";
    "window-rules/events/watch";
    "window-rules/list-views";
    "window-rules/list-outputs";
    "window-rules/list-wsets";
    "window-rules/view-info";
    "window-rules/output-info";
    "window-rules/wset-info";
    "window-rules/configure-view";
    "window-rules/focus-view";
    "window-rules/get-focused-view";
    "window-rules/get-focused-output";
    "window-rules/close-view" ]%string.

(** What [init] and [fini] do to the method repository: the calls in their
    order; a registration that fails ends [init], and nothing after it runs. *)
Definition init (repo : gmap string Method.t) : option (gmap string Method.t) :=
  foldl (λ r entry, r ≫= register_method entry.1 entry.2) (Some repo) init_methods.

Definition fini (repo : gmap string Method.t) : gmap string Method.t :=
  foldl (λ r name, unregister_method name r) repo fini_methods.

(** More sample data: a request that names a catalog name twice and an
    unknown name, and what a handle of the sample device points to. *)
Module More.

Definition mixed_names : list string :=
  ["view-mapped"; "no-such-event"; "view-mapped"]%string.

Definition unknown_names : list string := ["no-such-event"]%string.

Definition deref (handle : Z) : wlr_input_device :=
  {| wlr_name := Some "pointer0"%string; wlr_vendor := 1; wlr_product := 2;
     wlr_type := WLR_INPUT_DEVICE_POINTER |}.

Definition nonull (name : option string) : string := default "nil"%string name.

End More.

(** * Properties *)

(** ** Fan-out *)

Lemma fanout_outbox (data : json) (event_name : string)
    (l : list (client_interface_t * gset string)) (w : host_t) :
  let w' := foldl (λ w entry,
                     if wants entry.2 event_name then send_json entry.1 data w else w)
                  w l in
  get_outputs w' = get_outputs w ∧ connections w' = connections w ∧
  outbox w' = outbox w ++
    ((λ c, (c, data)) <$> (filter (λ entry, wants entry.2 event_name = true) l).*1).
Proof.
  revert w. induction l as [|[c events] l IH]; intros w; simpl.
  - by rewrite app_nil_r.
  - rewrite filter_cons. simpl.
    destruct (wants events event_name) eqn:Hw.
    + destruct (IH (send_json c data w)) as (-> & -> & ->).
      rewrite decide_True by done. simpl. by rewrite <- app_assoc.
    + destruct (IH w) as (-> & -> & ->). by rewrite decide_False.
Qed.

Lemma send_event_signal_map data event_name s :
  signal_map (send_event_to_subscribes data event_name s) = signal_map s.
Proof. done. Qed.

Lemma send_event_clients data event_name s :
  clients (send_event_to_subscribes data event_name s) = clients s.
Proof. done. Qed.

Lemma send_event_outputs data event_name s :
  get_outputs (core (send_event_to_subscribes data event_name s)) = get_outputs (core s).
Proof. apply fanout_outbox. Qed.

Lemma send_event_connections data event_name s :
  connections (core (send_event_to_subscribes data event_name s)) = connections (core s).
Proof. apply fanout_outbox. Qed.

Lemma send_event_outbox data event_name s :
  outbox (core (send_event_to_subscribes data event_name s)) =
  outbox (core s) ++ ((λ c, (c, data)) <$> recipients event_name s).
Proof. apply fanout_outbox. Qed.

Lemma wants_spec (events : gset string) (event_name : string) :
  wants events event_name = true ↔ events = ∅ ∨ event_name ∈ events.
Proof.
  unfold wants. rewrite orb_true_iff, !bool_decide_eq_true. done.
Qed.

Lemma elem_of_recipients (event_name : string) (s : ipc_rules_t) (c : client_interface_t) :
  c ∈ recipients event_name s ↔
  ∃ events, clients s !! c = Some events ∧ (events = ∅ ∨ event_name ∈ events).
Proof.
  unfold recipients. rewrite list_elem_of_fmap. split.
  - intros ([c' events] & -> & Hin). apply list_elem_of_filter in Hin as [Hw Hin].
    apply elem_of_map_to_list in Hin. exists events. split; [done|].
    by apply wants_spec.
  - intros (events & Hc & Hw). exists (c, events). split; [done|].
    apply list_elem_of_filter. split; [by apply wants_spec|].
    by apply elem_of_map_to_list.
Qed.

Lemma NoDup_recipients (event_name : string) (s : ipc_rules_t) :
  NoDup (recipients event_name s).
Proof.
  unfold recipients. apply NoDup_fmap_2_strong.
  - intros [c1 e1] [c2 e2] [_ H1]%list_elem_of_filter [_ H2]%list_elem_of_filter Heq.
    simpl in Heq. subst c2. apply elem_of_map_to_list in H1, H2. congruence.
  - apply NoDup_filter, NoDup_map_to_list.
Qed.

(** C6 (fan-out correctness): [send_event_to_subscribes] adds to the outbox
    one [send_json] of the payload per recipient, nothing else changes, no
    client is sent the payload twice, and a client is a recipient exactly when
    it is registered with a stored subscription set that is empty or contains
    the event name. *)
Theorem C6_fanout_exact (data : json) (event_name : string) (s : ipc_rules_t) :
  let s' := send_event_to_subscribes data event_name s in
  outbox (core s') = outbox (core s) ++ ((λ c, (c, data)) <$> recipients event_name s) ∧
  NoDup (recipients event_name s) ∧
  (∀ c, c ∈ recipients event_name s ↔
        ∃ events, clients s !! c = Some events ∧ (events = ∅ ∨ event_name ∈ events)) ∧
  signal_map s' = signal_map s ∧ clients s' = clients s ∧
  connections (core s') = connections (core s).
Proof.
  intros s'. split_and!.
  - apply send_event_outbox.
  - apply NoDup_recipients.
  - intros c. apply elem_of_recipients.
  - done.
  - done.
  - apply send_event_connections.
Qed.

(** ** The catalog *)

Lemma signal_map_init_catalog :
  signal_map_init =
  list_to_map ((λ conn, (catalog_name conn, registration conn)) <$> all_connections).
Proof. reflexivity. Qed.

Lemma signal_map_init_lookup (conn : connection_t) :
  signal_map_init !! catalog_name conn = Some (registration conn).
Proof. by destruct conn; vm_compute. Qed.

Lemma catalog_complete (ev_name : string) :
  ev_name ∈ dom signal_map_init → ∃ conn, ev_name = catalog_name conn.
Proof.
  intros [h Hh]%elem_of_dom. rewrite signal_map_init_catalog in Hh.
  apply elem_of_list_to_map_2 in Hh.
  apply list_elem_of_fmap in Hh as (conn & Heq & _).
  exists conn. congruence.
Qed.

Lemma catalog_name_in_dom (conn : connection_t) :
  catalog_name conn ∈ dom signal_map_init.
Proof. apply elem_of_dom. rewrite signal_map_init_lookup. by eexists. Qed.

#[global] Instance catalog_name_inj : Inj (=) (=) catalog_name.
Proof. intros c1 c2 H. destruct c1; destruct c2; first [done | discriminate H]. Qed.

Lemma fullscreen_not_in_catalog : ("view-fullscreen" : string) ∉ dom signal_map_init.
Proof. intros [conn H]%catalog_complete. by destruct conn. Qed.

(** ** Reference counts and attachments *)

Lemma register_outputs_spec (conn : connection_t) (outs : list output_t) (w : host_t) :
  let w' := foldl (λ acc wo, connect (output_provider wo) conn acc) w outs in
  get_outputs w' = get_outputs w ∧ outbox w' = outbox w ∧
  connections w' = connections w ++ ((λ wo, (conn, output_provider wo)) <$> outs).
Proof.
  revert w. induction outs as [|wo outs IH]; intros w; simpl.
  - by rewrite app_nil_r.
  - destruct (IH (connect (output_provider wo) conn w)) as (-> & -> & ->).
    simpl. by rewrite <- app_assoc.
Qed.

Lemma foldl_skip {A B} (l : list B) (a : A) : foldl (λ acc _, acc) a l = a.
Proof. by induction l. Qed.

Lemma elem_of_fresh_attachments conn outs c p :
  (c, p) ∈ fresh_attachments conn outs ↔ c = conn ∧ scope_of conn p outs.
Proof.
  unfold fresh_attachments, scope_of. destruct (per_output conn).
  - rewrite list_elem_of_fmap. split.
    + intros (wo & [= -> ->] & Hin). eauto.
    + intros (-> & wo & -> & Hin). eauto.
  - rewrite list_elem_of_singleton. split; [by intros [= -> ->]|by intros [-> ->]].
Qed.

Lemma NoDup_fresh_attachments conn outs :
  NoDup outs → NoDup (fresh_attachments conn outs).
Proof.
  intros Hnd. unfold fresh_attachments. destruct (per_output conn).
  - apply NoDup_fmap_2; [by intros ?? [= ->]|done].
  - apply NoDup_singleton.
Qed.

Lemma increase_count_registered (conn : connection_t) (k : Z) (w : host_t) :
  let r := increase_count (with_count (registration conn) k) w in
  r.1 = with_count (registration conn) (k + 1) ∧
  get_outputs r.2 = get_outputs w ∧ outbox r.2 = outbox w ∧
  connections r.2 =
    connections w ++
    (if decide (k + 1 > 1) then [] else fresh_attachments conn (get_outputs w)).
Proof.
  unfold increase_count, registration, fresh_attachments. simpl.
  case_decide; simpl.
  - by rewrite app_nil_r.
  - destruct (per_output conn); simpl.
    + destruct (register_outputs_spec conn (get_outputs w) w) as (-> & -> & ->). done.
    + by rewrite foldl_skip.
Qed.

Lemma decrease_count_registered (conn : connection_t) (k : Z) (w : host_t) :
  let r := decrease_count (with_count (registration conn) k) w in
  r.1 = with_count (registration conn) (k - 1) ∧
  get_outputs r.2 = get_outputs w ∧ outbox r.2 = outbox w ∧
  connections r.2 =
    (if decide (k - 1 > 0) then connections w
     else filter (λ a, a.1 ≠ conn) (connections w)).
Proof.
  unfold decrease_count, registration. simpl.
  case_decide; simpl; [done|]. by destruct (per_output conn).
Qed.

Lemma tracked_mono need need' sm w :
  tracked need sm w →
  (∀ conn, 0 ≤ need' (catalog_name conn) ≤ need (catalog_name conn)) →
  tracked need' sm w.
Proof.
  intros (Hdom & Hout & Hnd & Hconn) Hle. split_and!; try done.
  intros conn. destruct (Hconn conn) as (k & Hk & Hneed & Hmem).
  exists k. split_and!; try done; specialize (Hle conn); lia.
Qed.

Lemma tracked_increase need s conn :
  tracked need (signal_map s) (core s) →
  let s' := signal_increase s (catalog_name conn) in
  tracked (λ n, need n + if decide (n = catalog_name conn) then 1 else 0)
          (signal_map s') (core s') ∧
  clients s' = clients s.
Proof.
  intros (Hdom & Hout & Hnd & Hconn).
  destruct (Hconn conn) as (k & Hk & Hneed & Hmem).
  unfold signal_increase, signal_map_at. rewrite Hk. simpl.
  pose proof (increase_count_registered conn k (core s)) as Hinc.
  destruct (increase_count (with_count (registration conn) k) (core s)) as [h w'].
  simpl in Hinc. destruct Hinc as (-> & Ho & Hb & Hc). simpl.
  split; [|done]. split_and!.
  - by rewrite dom_insert_lookup_L by (by rewrite Hk).
  - by rewrite Ho.
  - rewrite Hc. case_decide; [by rewrite app_nil_r|].
    assert (k = 0) as -> by lia.
    apply NoDup_app. split_and!; [done| |by apply NoDup_fresh_attachments].
    intros [c p] Hin [-> _]%elem_of_fresh_attachments.
    apply Hmem in Hin. lia.
  - intros conn'. destruct (decide (conn' = conn)) as [->|Hne].
    + exists (k + 1). rewrite lookup_insert_eq, decide_True by done.
      split_and!; [done|lia|lia|].
      intros p. rewrite Hc, Ho. case_decide.
      * rewrite app_nil_r, Hmem. intuition lia.
      * assert (k = 0) as -> by lia.
        rewrite elem_of_app, Hmem, elem_of_fresh_attachments. intuition lia.
    + destruct (Hconn conn') as (k' & Hk' & Hneed' & Hmem').
      exists k'. rewrite lookup_insert_ne by (intros Heq; by apply (inj catalog_name) in Heq).
      rewrite decide_False by (intros Heq; by apply (inj catalog_name) in Heq).
      split_and!; [done|lia|lia|].
      intros p. rewrite Hc, Ho. case_decide.
      * by rewrite app_nil_r.
      * rewrite elem_of_app, Hmem', elem_of_fresh_attachments. intuition congruence.
Qed.

Lemma tracked_decrease need s conn :
  tracked need (signal_map s) (core s) →
  1 ≤ need (catalog_name conn) →
  let s' := signal_decrease s (catalog_name conn) in
  tracked (λ n, need n - if decide (n = catalog_name conn) then 1 else 0)
          (signal_map s') (core s') ∧
  clients s' = clients s.
Proof.
  intros (Hdom & Hout & Hnd & Hconn) Hone.
  destruct (Hconn conn) as (k & Hk & Hneed & Hmem).
  unfold signal_decrease, signal_map_at. rewrite Hk. simpl.
  pose proof (decrease_count_registered conn k (core s)) as Hdec.
  destruct (decrease_count (with_count (registration conn) k) (core s)) as [h w'].
  simpl in Hdec. destruct Hdec as (-> & Ho & Hb & Hc). simpl.
  split; [|done]. split_and!.
  - by rewrite dom_insert_lookup_L by (by rewrite Hk).
  - by rewrite Ho.
  - rewrite Hc. case_decide; [done|]. by apply NoDup_filter.
  - intros conn'. destruct (decide (conn' = conn)) as [->|Hne].
    + exists (k - 1). rewrite lookup_insert_eq, decide_True by done.
      split_and!; [done|lia|lia|].
      intros p. rewrite Hc, Ho. case_decide.
      * rewrite Hmem. intuition lia.
      * rewrite list_elem_of_filter. simpl. intuition lia.
    + destruct (Hconn conn') as (k' & Hk' & Hneed' & Hmem').
      exists k'. rewrite lookup_insert_ne by (intros Heq; by apply (inj catalog_name) in Heq).
      rewrite decide_False by (intros Heq; by apply (inj catalog_name) in Heq).
      split_and!; [done|lia|lia|].
      intros p. rewrite Hc, Ho. case_decide; [done|].
      rewrite list_elem_of_filter, Hmem'. simpl. intuition congruence.
Qed.

Lemma tracked_need_nonneg need sm w conn :
  tracked need sm w → 0 ≤ need (catalog_name conn).
Proof. intros (_ & _ & _ & Hconn). destruct (Hconn conn) as (k & _ & ? & _). lia. Qed.

Lemma tracked_increase_all need (names : list string) s :
  tracked need (signal_map s) (core s) →
  (∀ n, n ∈ names → n ∈ dom signal_map_init) →
  let s' := foldl signal_increase s names in
  tracked (λ n, need n + if decide (n ∈ names) then 1 else 0)
          (signal_map s') (core s') ∧
  clients s' = clients s.
Proof.
  revert need s. induction names as [|n names IH]; intros need s Ht Hin; simpl.
  - split; [|done]. eapply tracked_mono; [done|]. intros conn.
    pose proof (tracked_need_nonneg _ _ _ conn Ht). cbv beta. lia.
  - destruct (catalog_complete n) as [conn ->]; [apply Hin; left|].
    destruct (tracked_increase need s conn Ht) as [Ht' Hcl].
    destruct (IH _ _ Ht') as [Ht'' Hcl'']; [intros; apply Hin; by right|].
    split; [|congruence]. eapply tracked_mono; [done|]. intros conn'. simpl.
    pose proof (tracked_need_nonneg _ _ _ conn' Ht).
    repeat case_decide; try lia; exfalso; rewrite elem_of_cons in *; intuition congruence.
Qed.

Lemma tracked_decrease_all need (names : list string) s :
  tracked need (signal_map s) (core s) →
  NoDup names →
  (∀ n, n ∈ names → n ∈ dom signal_map_init ∧ 1 ≤ need n) →
  let s' := foldl signal_decrease s names in
  tracked (λ n, need n - if decide (n ∈ names) then 1 else 0)
          (signal_map s') (core s') ∧
  clients s' = clients s.
Proof.
  revert need s. induction names as [|n names IH]; intros need s Ht Hnd Hin; simpl.
  - split; [|done]. eapply tracked_mono; [done|]. intros conn.
    pose proof (tracked_need_nonneg _ _ _ conn Ht). cbv beta. lia.
  - apply NoDup_cons in Hnd as [Hn Hnd].
    destruct (Hin n) as [Hdom Hone]; [left|].
    destruct (catalog_complete n Hdom) as [conn ->].
    destruct (tracked_decrease need s conn Ht Hone) as [Ht' Hcl].
    destruct (IH _ _ Ht' Hnd) as [Ht'' Hcl''].
    { intros m Hm. destruct (Hin m) as [? ?]; [by right|]. split; [done|].
      rewrite decide_False by (intros ->; done). lia. }
    split; [|congruence]. eapply tracked_mono; [done|]. intros conn'. simpl.
    pose proof (tracked_need_nonneg _ _ _ conn' Ht'') as Hnn. simpl in Hnn.
    repeat case_decide; try lia; exfalso; rewrite elem_of_cons in *; intuition congruence.
Qed.

(** ** Holders of a name *)

Lemma holders_nonneg ev_name cl : 0 ≤ holders ev_name cl.
Proof. unfold holders. lia. Qed.

Lemma holders_insert ev_name c (events : gset string) cl :
  holders ev_name (<[c := events]> cl) ≤
  holders ev_name cl + if decide (ev_name ∈ events) then 1 else 0.
Proof.
  unfold holders. rewrite map_filter_insert. simpl. case_decide.
  - rewrite map_size_insert. destruct (filter _ cl !! c); simpl; lia.
  - rewrite map_filter_delete, map_size_delete. destruct (filter _ cl !! c); simpl; lia.
Qed.

Lemma holders_delete ev_name c (events : gset string) cl :
  cl !! c = Some events →
  holders ev_name (delete c cl) =
  holders ev_name cl - if decide (ev_name ∈ events) then 1 else 0.
Proof.
  intros Hc. unfold holders. rewrite map_filter_delete, map_size_delete.
  destruct (filter _ cl !! c) as [e|] eqn:Hf.
  - apply map_lookup_filter_Some in Hf as [He Hin]. simpl in Hin.
    assert (e = events) as -> by congruence. rewrite decide_True by done.
    assert (size (filter (λ entry, ev_name ∈ entry.2) cl) ≠ 0%nat).
    { intros Hz%map_size_empty_inv.
      assert (filter (λ entry : client_interface_t * gset string, ev_name ∈ entry.2) cl !! c
              = Some events) as Hl by (by apply map_lookup_filter_Some).
      rewrite Hz in Hl. by rewrite lookup_empty in Hl. }
    simpl. lia.
  - rewrite decide_False; [simpl; lia|].
    intros Hin. apply eq_None_not_Some in Hf. apply Hf.
    exists events. by apply map_lookup_filter_Some.
Qed.

(** ** The names events/watch collects *)

Lemma collect_events_subseteq sm subs acc events :
  collect_events sm subs acc = Some events →
  acc ⊆ dom sm → events ⊆ dom sm.
Proof.
  revert acc. induction subs as [|sub subs IH]; intros acc Hc Hacc; simpl in Hc.
  - by simplify_eq.
  - destruct sub; try discriminate. apply IH in Hc; [done|].
    destruct (sm !! s) eqn:Hs; [|done].
    apply union_least; [|done]. apply singleton_subseteq_l, elem_of_dom. eauto.
Qed.

Lemma collect_events_non_string sm subs acc :
  Exists (λ sub, is_string sub = false) subs → collect_events sm subs acc = None.
Proof.
  intros Hex. revert acc. induction Hex as [sub subs Hsub|sub subs Hex IH]; intros acc; simpl.
  - by destruct sub.
  - destruct sub; try done; apply IH.
Qed.

Lemma collect_events_strings sm subs acc :
  Forall (λ sub, is_string sub = true) subs → is_Some (collect_events sm subs acc).
Proof.
  intros Hall. revert acc. induction Hall as [|sub subs Hsub Hall IH]; intros acc; simpl.
  - eauto.
  - destruct sub; try done; apply IH.
Qed.

(** ** Outputs coming and going *)

Lemma tracked_ext need sm w w' :
  tracked need sm w →
  get_outputs w' = get_outputs w → connections w' = connections w →
  tracked need sm w'.
Proof. unfold tracked. by intros ? -> ->. Qed.

Lemma scope_of_output conn wo outs :
  scope_of conn (output_provider wo) outs ↔ per_output conn = true ∧ wo ∈ outs.
Proof.
  unfold scope_of. destruct (per_output conn); [|naive_solver].
  split; [by intros (wo' & [= ->] & ?)|intros [_ ?]; eauto].
Qed.

Lemma scope_of_core conn outs :
  scope_of conn core_provider outs ↔ per_output conn = false.
Proof. unfold scope_of. destruct (per_output conn); naive_solver. Qed.

Lemma register_output_registered conn k wo w :
  let h := with_count (registration conn) k in
  let w' := if decide (connected_count h ≠ 0) then register_output h wo w else w in
  get_outputs w' = get_outputs w ∧ outbox w' = outbox w ∧
  connections w' =
    connections w ++
    (if decide (k ≠ 0) then if per_output conn then [(conn, output_provider wo)] else []
     else []).
Proof.
  unfold registration. simpl. case_decide; [|by rewrite app_nil_r].
  destruct (per_output conn); simpl; [done|by rewrite app_nil_r].
Qed.

Lemma new_output_attachments (wo : output_t)
    (l : list (string * signal_registration_handler)) (w : host_t) :
  NoDup l.*1 →
  (∀ n h, (n, h) ∈ l →
          ∃ conn k, n = catalog_name conn ∧ h = with_count (registration conn) k) →
  let w' := foldl (λ w entry,
                     if decide (connected_count entry.2 ≠ 0)
                     then register_output entry.2 wo w else w) w l in
  get_outputs w' = get_outputs w ∧ outbox w' = outbox w ∧
  ∃ added, connections w' = connections w ++ added ∧ NoDup added ∧
    ∀ conn p, (conn, p) ∈ added ↔
      p = output_provider wo ∧ per_output conn = true ∧
      ∃ k, (catalog_name conn, with_count (registration conn) k) ∈ l ∧ k ≠ 0.
Proof.
  revert w. induction l as [|[n h] l IH]; intros w Hnd Hreg; simpl.
  - split_and!; try done. exists []. rewrite app_nil_r. split_and!; [done|constructor|].
    intros conn p. split; [by intros ?%elem_of_nil|].
    by intros (_ & _ & k & ?%elem_of_nil & _).
  - simpl in Hnd. apply NoDup_cons in Hnd as [Hn Hnd].
    destruct (Hreg n h) as (c & k & -> & ->); [left|].
    pose proof (register_output_registered c k wo w) as Hone. cbv zeta in Hone.
    set (w1 := if decide (connected_count (with_count (registration c) k) ≠ 0)
               then register_output (with_count (registration c) k) wo w else w) in *.
    destruct Hone as (Ho & Hb & Hc).
    destruct (IH w1 Hnd) as (Ho' & Hb' & added & Hc' & Hnd' & Hmem).
    { intros n h Hin. apply Hreg. by right. }
    split_and!; [congruence|congruence|].
    set (a1 := if decide (k ≠ 0)
               then if per_output c then [(c, output_provider wo)] else [] else []) in *.
    assert (∀ conn p, (conn, p) ∈ a1 ↔
              conn = c ∧ p = output_provider wo ∧ per_output c = true ∧ k ≠ 0) as Ha1.
    { intros conn p. unfold a1. case_decide; [destruct (per_output c)|].
      - rewrite list_elem_of_singleton. naive_solver.
      - rewrite elem_of_nil. naive_solver.
      - rewrite elem_of_nil. naive_solver. }
    exists (a1 ++ added). split_and!.
    + by rewrite Hc', Hc, <- app_assoc.
    + apply NoDup_app. split_and!; [|intros [conn p] Hin1 Hin2|done].
      * unfold a1. case_decide; [destruct (per_output c)|];
          first [apply NoDup_singleton | constructor].
      * apply Ha1 in Hin1 as (-> & _). apply Hmem in Hin2 as (_ & _ & k' & Hin2 & _).
        apply Hn. apply list_elem_of_fmap. by eexists (_, _).
    + intros conn p. rewrite elem_of_app, Ha1, Hmem. split.
      * intros [(-> & -> & Hp & Hk)|(-> & Hp & k' & Hin & Hk)].
        -- split_and!; try done. exists k. split; [left|done].
        -- split_and!; try done. exists k'. split; [by right|done].
      * intros (-> & Hp & k' & Hin & Hk). apply elem_of_cons in Hin as [Heq|Hin].
        -- left. pose proof (f_equal fst Heq) as Hname.
           pose proof (f_equal (connected_count ∘ snd) Heq) as Hh. simpl in Hname, Hh.
           apply (inj catalog_name) in Hname as ->. subst k'. done.
        -- right. eauto.
Qed.

Lemma tracked_output_added need wo output_json s :
  tracked need (signal_map s) (core s) →
  wo ∉ get_outputs (core s) →
  let s' := output_added wo output_json s in
  tracked need (signal_map s') (core s') ∧ clients s' = clients s ∧
  get_outputs (core s') = get_outputs (core s) ++ [wo].
Proof.
  intros (Hdom & Hout & Hnd & Hconn) Hfresh s'.
  set (w0 := {| get_outputs := get_outputs (core s) ++ [wo];
                connections := connections (core s);
                outbox := outbox (core s) |}).
  destruct (new_output_attachments wo (map_to_list (signal_map s)) w0)
    as (Ho & Hb & added & Hc & Hnd' & Hmem).
  { apply NoDup_fst_map_to_list. }
  { intros n h Hin%elem_of_map_to_list.
    destruct (catalog_complete n) as [conn ->].
    { rewrite <- Hdom. apply elem_of_dom. eauto. }
    destruct (Hconn conn) as (k & Hk & _). exists conn, k. split; [done|congruence]. }
  assert (get_outputs (core s') = get_outputs (core s) ++ [wo]) as Hos.
  { unfold s', output_added, handle_new_output. rewrite send_event_outputs. simpl. apply Ho. }
  assert (connections (core s') = connections (core s) ++ added) as Hcs.
  { unfold s', output_added, handle_new_output. rewrite send_event_connections. simpl. apply Hc. }
  split_and!; [|done|done].
  unfold tracked. rewrite Hos, Hcs. split_and!.
  - done.
  - apply NoDup_app. split_and!; [done| |apply NoDup_singleton].
    intros x Hx ->%list_elem_of_singleton. done.
  - apply NoDup_app. split_and!; [done| |done].
    intros [conn p] Hold Hadd. apply Hmem in Hadd as (Hp & Hper & k' & Hin & Hk'). subst p.
    destruct (Hconn conn) as (k & _ & _ & Hm). apply Hm in Hold as [_ Hsc].
    apply scope_of_output in Hsc as [_ ?]. done.
  - intros conn. destruct (Hconn conn) as (k & Hk & Hneed & Hm).
    exists k. split_and!; [done|lia|lia|].
    intros p. rewrite elem_of_app, Hm, Hmem. split.
    + intros [[Hpos Hsc]|(-> & Hp & k' & Hin & Hk')].
      * split; [done|]. unfold scope_of in *. destruct (per_output conn); [|done].
        destruct Hsc as (wo' & -> & ?). exists wo'. split; [done|]. apply elem_of_app. by left.
      * apply elem_of_map_to_list in Hin. rewrite Hk in Hin.
        apply (f_equal (fmap connected_count)) in Hin. simpl in Hin.
        injection Hin as Hin.
        split; [lia|]. apply scope_of_output. split; [done|].
        apply elem_of_app. right. by apply list_elem_of_singleton.
    + intros [Hpos Hsc]. destruct p as [|wo'].
      * left. split; [done|]. apply scope_of_core. by apply scope_of_core in Hsc.
      * apply scope_of_output in Hsc as [Hp [Hin| ->%list_elem_of_singleton]%elem_of_app].
        -- left. split; [done|]. by apply scope_of_output.
        -- right. split_and!; try done. exists k. split; [|lia].
           by apply elem_of_map_to_list.
Qed.

Lemma tracked_output_removed need wo output_json s :
  tracked need (signal_map s) (core s) →
  let s' := output_removed wo output_json s in
  tracked need (signal_map s') (core s') ∧ clients s' = clients s.
Proof.
  intros (Hdom & Hout & Hnd & Hconn) s'.
  assert (get_outputs (core s') = filter (λ o, o ≠ wo) (get_outputs (core s))) as Hos.
  { unfold s', output_removed, handle_output_removed. cbn [core get_outputs].
    by rewrite send_event_outputs. }
  assert (connections (core s') =
          filter (λ a, a.2 ≠ output_provider wo) (connections (core s))) as Hcs.
  { unfold s', output_removed, handle_output_removed. cbn [core connections].
    by rewrite send_event_connections. }
  split; [|done]. unfold tracked. rewrite Hos, Hcs.
  split_and!; [done|by apply NoDup_filter|by apply NoDup_filter|].
  intros conn. destruct (Hconn conn) as (k & Hk & Hneed & Hm).
  exists k. split_and!; [done|lia|lia|].
  intros p. rewrite list_elem_of_filter, Hm. simpl. split.
  - intros (Hp & Hpos & Hsc). split; [done|]. destruct p as [|wo'].
    + apply scope_of_core. by apply scope_of_core in Hsc.
    + apply scope_of_output in Hsc as [? ?]. apply scope_of_output. split; [done|].
      apply list_elem_of_filter. split; [congruence|done].
  - intros (Hpos & Hsc). destruct p as [|wo'].
    + split_and!; [done|done|]. apply scope_of_core. by apply scope_of_core in Hsc.
    + apply scope_of_output in Hsc as [? [? ?]%list_elem_of_filter].
      split_and!; [congruence|done|]. by apply scope_of_output.
Qed.

Lemma emit_frame p conn fields s :
  let s' := emit p conn fields s in
  signal_map s' = signal_map s ∧ clients s' = clients s ∧
  get_outputs (core s') = get_outputs (core s) ∧
  connections (core s') = connections (core s).
Proof.
  unfold emit. induction (attachments p conn (core s)) as [|n IH]; [done|].
  rewrite Nat.iter_succ. destruct IH as (Hs & Hc & Ho & Hn).
  set (s1 := Nat.iter n (callback conn fields) s) in *. unfold callback.
  by rewrite send_event_outputs, send_event_connections.
Qed.

(** ** The invariant holds in every reachable state *)

Lemma registration_count_zero conn : registration conn = with_count (registration conn) 0.
Proof. by destruct conn. Qed.

Lemma consistent_initial : consistent initial_state.
Proof.
  split; [|by intros c events ?]. split_and!; try done; try constructor.
  intros conn. exists 0. simpl.
  rewrite signal_map_init_lookup, <- registration_count_zero.
  split_and!; [done|done|done|].
  intros p. split; [by intros ?%elem_of_nil|lia].
Qed.

Lemma requested_events_subseteq data sm events :
  requested_events data sm = Some events → events ⊆ dom sm.
Proof.
  unfold requested_events. destruct (contains data EVENTS).
  - intros H. by eapply collect_events_subseteq.
  - by intros [= <-].
Qed.

Lemma consistent_subscribe client events s :
  consistent s → events ⊆ dom (signal_map s) → consistent (subscribe client events s).
Proof.
  intros [Ht Hsub] Hev.
  assert (dom (signal_map s) = dom signal_map_init) as Hdom by apply Ht.
  destruct (tracked_increase_all _ (elements events) s Ht) as [Ht1 Hcl].
  { intros n Hn%elem_of_elements. rewrite <- Hdom. by apply Hev. }
  unfold subscribe. split; cbn [signal_map clients core].
  - eapply tracked_mono; [done|]. intros conn. cbv beta. rewrite Hcl.
    pose proof (holders_nonneg (catalog_name conn) (<[client:=events]> (clients s))).
    pose proof (holders_insert (catalog_name conn) client events (clients s)).
    repeat case_decide; try lia; exfalso; rewrite elem_of_elements in *; done.
  - intros c ev. rewrite Hcl. intros [[_ <-]|[_ Hc]]%lookup_insert_Some.
    + by rewrite <- Hdom.
    + by eapply Hsub.
Qed.

Lemma consistent_watch data client s :
  consistent s → consistent (on_client_watch data client s).2.
Proof.
  intros Hc. unfold on_client_watch.
  destruct (WFJSON_OPTIONAL_FIELD _ _ _ _); [done|].
  destruct (requested_events _ _) as [events|] eqn:Hreq; [|done].
  apply consistent_subscribe; [done|]. by eapply requested_events_subseteq.
Qed.

Lemma consistent_disconnect client s :
  consistent s → consistent (on_client_disconnected client s).
Proof.
  intros [Ht Hsub]. unfold on_client_disconnected.
  destruct (clients s !! client) as [events|] eqn:Hcl; simpl.
  - destruct (tracked_decrease_all _ (elements events) s Ht) as [Ht1 Hcl1].
    { apply NoDup_elements. }
    { intros n Hn%elem_of_elements. split; [by eapply Hsub|].
      pose proof (holders_delete n client events (clients s) Hcl) as Hd.
      pose proof (holders_nonneg n (delete client (clients s))).
      rewrite decide_True in Hd by done. lia. }
    split; cbn [signal_map clients core].
    + eapply tracked_mono; [done|]. intros conn. cbv beta. rewrite Hcl1.
      pose proof (holders_nonneg (catalog_name conn) (delete client (clients s))).
      rewrite (holders_delete _ _ _ _ Hcl) in *.
      repeat case_decide; try lia; exfalso; rewrite elem_of_elements in *; done.
    + intros c ev. rewrite Hcl1. intros [_ Hc]%lookup_delete_Some. by eapply Hsub.
  - rewrite elements_empty. simpl. rewrite delete_id by done. by split.
Qed.

Lemma consistent_step s s' : consistent s → step s s' → consistent s'.
Proof.
  intros Hc Hstep. destruct Hstep as [data client s|client s|wo oj s Hf|wo oj s Hin|p conn f s].
  - by apply consistent_watch.
  - by apply consistent_disconnect.
  - destruct Hc as [Ht Hsub].
    destruct (tracked_output_added _ wo oj s Ht Hf) as (Ht' & Hcl & _).
    split; rewrite Hcl; done.
  - destruct Hc as [Ht Hsub].
    destruct (tracked_output_removed _ wo oj s Ht) as (Ht' & Hcl).
    split; rewrite Hcl; done.
  - destruct Hc as [Ht Hsub].
    destruct (emit_frame p conn f s) as (Hs & Hcl & Ho & Hn).
    split; rewrite Hcl, ?Hs; [|done]. by eapply tracked_ext.
Qed.

Lemma reachable_consistent s : reachable s → consistent s.
Proof.
  unfold reachable. intros Hr.
  eapply (rtc_ind_r (λ s, consistent s)); [apply consistent_initial| |exact Hr].
  intros y z _ Hstep Hy. by eapply consistent_step.
Qed.

(** ** Runs within the range of [int] *)

Lemma int_wrap_in_range (z : Z) : INT_MIN ≤ z ≤ INT_MAX → int_wrap z = z.
Proof.
  unfold int_wrap, INT_MIN, INT_MAX. intros Hz. rewrite Z.mod_small by lia. lia.
Qed.

(** Below [INT_MAX] the 32-bit [increase_count] is the one of the model. *)
Lemma increase_count_int_agrees (h : signal_registration_handler) (w : host_t) :
  INT_MIN ≤ connected_count h < INT_MAX →
  increase_count_int h w = increase_count h w.
Proof.
  intros Hk. unfold increase_count_int, increase_count.
  rewrite int_wrap_in_range; [done|]. unfold INT_MAX in *. lia.
Qed.

(** Above [INT_MIN] the 32-bit [decrease_count] is the one of the model. *)
Lemma decrease_count_int_agrees (h : signal_registration_handler) (w : host_t) :
  INT_MIN < connected_count h ≤ INT_MAX →
  decrease_count_int h w = decrease_count h w.
Proof.
  intros Hk. unfold decrease_count_int, decrease_count.
  rewrite int_wrap_in_range; [done|]. unfold INT_MIN in *. lia.
Qed.

(** At [INT_MAX] they differ: the 32-bit count wraps to [INT_MIN], which is
    not above 1, and the connection is attached a second time. *)
Lemma increase_count_int_overflow (conn : connection_t) (w : host_t) :
  let r := increase_count_int (with_count (registration conn) INT_MAX) w in
  connected_count r.1 = INT_MIN ∧
  connections r.2 = connections w ++ fresh_attachments conn (get_outputs w).
Proof.
  unfold increase_count_int, registration, fresh_attachments. simpl.
  assert (int_wrap (INT_MAX + 1) = INT_MIN) as -> by (vm_compute; reflexivity).
  cbn [connected_count with_count].
  destruct (decide (INT_MIN > 1)) as [Hgt|_]; [unfold INT_MIN in Hgt; lia|]. simpl.
  split; [done|]. destruct (per_output conn); simpl.
  - by destruct (register_outputs_spec conn (get_outputs w) w) as (_ & _ & ->).
  - by rewrite foldl_skip.
Qed.

Lemma counts_in_int_initial : counts_in_int initial_state.
Proof. apply (bool_decide_unpack _). vm_compute. exact I. Qed.

Lemma reachable_int_reachable s : reachable_int s → reachable s.
Proof.
  unfold reachable_int, reachable. intros Hr.
  eapply (rtc_ind_r (λ s, rtc step initial_state s)); [apply rtc_refl| |exact Hr].
  intros y z _ [Hstep _] Hy. by eapply rtc_r.
Qed.

Lemma reachable_int_counts s : reachable_int s → counts_in_int s.
Proof.
  unfold reachable_int. intros Hr.
  eapply (rtc_ind_r (λ s, counts_in_int s)); [apply counts_in_int_initial| |exact Hr].
  by intros y z _ [_ Hz] _.
Qed.

Lemma counts_in_int_count_of s n k :
  counts_in_int s → count_of s n = Some k → INT_MIN ≤ k ≤ INT_MAX.
Proof.
  unfold counts_in_int, count_of. intros Hall Hk.
  destruct (signal_map s !! n) as [h|] eqn:Hh; [|done].
  simpl in Hk. injection Hk as <-. exact (Hall n h Hh).
Qed.

Lemma counts_in_int_same_map s s' :
  signal_map s' = signal_map s → counts_in_int s → counts_in_int s'.
Proof. unfold counts_in_int. by intros ->. Qed.

Lemma length_filter_eq_NoDup {A} `{EqDecision A} (x : A) (l : list A) :
  NoDup l →
  length (filter (λ a, a = x) l) = if decide (x ∈ l) then 1%nat else 0%nat.
Proof.
  induction 1 as [|y l Hy Hnd IH]; [done|].
  rewrite filter_cons. destruct (decide (y = x)) as [->|Hne]; simpl.
  - rewrite IH, decide_False by done. rewrite decide_True by left. done.
  - rewrite IH. destruct (decide (x ∈ l)).
    + rewrite decide_True by (by right). done.
    + rewrite decide_False; [done|]. intros [?|?]%elem_of_cons; congruence.
Qed.

Lemma attachments_consistent s conn p :
  consistent s →
  ∃ k, count_of s (catalog_name conn) = Some k ∧ 0 ≤ k ∧
       holders (catalog_name conn) (clients s) ≤ k ∧
       ((conn, p) ∈ connections (core s) ↔ 0 < k ∧ scope_of conn p (get_outputs (core s))) ∧
       attachments p conn (core s) =
         if decide ((conn, p) ∈ connections (core s)) then 1%nat else 0%nat.
Proof.
  intros [(Hdom & Hout & Hnd & Hconn) Hsub].
  destruct (Hconn conn) as (k & Hk & Hneed & Hmem).
  pose proof (holders_nonneg (catalog_name conn) (clients s)).
  exists k. unfold count_of. rewrite Hk. split_and!; [done|lia|lia|done|].
  unfold attachments. by apply length_filter_eq_NoDup.
Qed.

Lemma count_of_signal_increase s n m :
  count_of (signal_increase s n) m =
  if decide (m = n) then Some (connected_count (signal_map_at s n) + 1)
  else count_of s m.
Proof.
  unfold count_of, signal_increase, increase_count. simpl.
  case_decide as Hgt; simpl; (case_decide as Hmn;
    [subst; by rewrite lookup_insert_eq|by rewrite lookup_insert_ne]).
Qed.

Lemma signal_increase_registered s conn k :
  signal_map s !! catalog_name conn = Some (with_count (registration conn) k) →
  let s' := signal_increase s (catalog_name conn) in
  signal_map s' = <[catalog_name conn := with_count (registration conn) (k + 1)]> (signal_map s) ∧
  clients s' = clients s ∧
  get_outputs (core s') = get_outputs (core s) ∧
  outbox (core s') = outbox (core s) ∧
  connections (core s') =
    connections (core s) ++
    (if decide (k + 1 > 1) then [] else fresh_attachments conn (get_outputs (core s))).
Proof.
  intros Hk. unfold signal_increase, signal_map_at. rewrite Hk. simpl.
  pose proof (increase_count_registered conn k (core s)) as Hinc.
  destruct (increase_count (with_count (registration conn) k) (core s)) as [h w'].
  simpl in Hinc. destruct Hinc as (-> & Ho & Hb & Hc). done.
Qed.

(** C5 (idempotent attach): in every state reached by a run whose counts
    stay within the range of [int], a connection is attached to a scope at
    most once; its count is never negative, so [increase_count], called while
    the count is below [INT_MAX], attaches (the core once, or each existing
    output once) only when the count goes from 0 to 1 and does no attachment
    work otherwise; and a newly appearing output receives exactly one
    attachment of every per-output connection whose count is positive, none
    of the others, while the attachments to all other scopes stay as they
    were. *)
Theorem C5_idempotent_attach (s : ipc_rules_t) (conn : connection_t)
    (wo : output_t) (output_json : json) :
  reachable_int s →
  counts_in_int (signal_increase s (catalog_name conn)) →
  wo ∉ get_outputs (core s) →
  ∃ k, count_of s (catalog_name conn) = Some k ∧ 0 ≤ k < INT_MAX ∧
    (∀ p, attachments p conn (core s) ≤ 1)%nat ∧
    (let s' := signal_increase s (catalog_name conn) in
     count_of s' (catalog_name conn) = Some (k + 1) ∧
     connections (core s') =
       connections (core s) ++
       (if decide (k = 0) then fresh_attachments conn (get_outputs (core s)) else []) ∧
     NoDup (fresh_attachments conn (get_outputs (core s))) ∧
     ∀ p, (attachments p conn (core s') ≤ 1)%nat) ∧
    (let s' := output_added wo output_json s in
     attachments (output_provider wo) conn (core s') =
       (if per_output conn && bool_decide (0 < k)%Z then 1 else 0)%nat ∧
     ∀ p, p ≠ output_provider wo →
          attachments p conn (core s') = attachments p conn (core s)).
Proof.
  intros Hrun Hfit Hfresh. pose proof (reachable_int_reachable s Hrun) as Hr.
  pose proof (reachable_consistent s Hr) as Hcons.
  destruct (attachments_consistent s conn core_provider Hcons) as (k & Hk & Hk0 & _).
  assert (signal_map s !! catalog_name conn = Some (with_count (registration conn) k)) as Hreg.
  { destruct Hcons as [(_ & _ & _ & Hconn) _]. destruct (Hconn conn) as (k' & Hk' & _).
    unfold count_of in Hk. rewrite Hk' in Hk. simpl in Hk. congruence. }
  assert (k < INT_MAX) as Hmax.
  { assert (count_of (signal_increase s (catalog_name conn)) (catalog_name conn)
            = Some (k + 1)) as Hk1.
    { rewrite count_of_signal_increase, decide_True by done.
      unfold signal_map_at. by rewrite Hreg. }
    pose proof (counts_in_int_count_of _ _ _ Hfit Hk1). lia. }
  assert (∀ s1 p, consistent s1 → (attachments p conn (core s1) ≤ 1)%nat) as Hle.
  { intros s1 p Hc1. destruct (attachments_consistent s1 conn p Hc1) as (? & _ & _ & _ & _ & ->).
    case_decide; lia. }
  exists k. split_and!; [done|done|done|by intros p; apply Hle| |].
  - destruct (signal_increase_registered s conn k Hreg) as (Hsm & Hcl & Ho & Hb & Hc).
    split_and!.
    + rewrite count_of_signal_increase, decide_True by done.
      unfold signal_map_at. by rewrite Hreg.
    + rewrite Hc. repeat case_decide; try done; lia.
    + apply NoDup_fresh_attachments, Hcons.
    + intros p. apply Hle. destruct Hcons as [Ht Hsub].
      destruct (tracked_increase _ s conn Ht) as [Ht' Hcl'].
      split; rewrite Hcl'; [|done]. eapply tracked_mono; [done|].
      intros conn'. simpl. pose proof (holders_nonneg (catalog_name conn') (clients s)).
      destruct (decide (catalog_name conn' = catalog_name conn)); lia.
  - assert (consistent (output_added wo output_json s)) as Hcons'.
    { eapply consistent_step; [done|]. by constructor. }
    destruct Hcons as [Ht Hsub].
    destruct (tracked_output_added _ wo output_json s Ht Hfresh) as (_ & _ & Hos).
    assert (∀ p, (conn, p) ∈ connections (core (output_added wo output_json s)) ↔
                 0 < k ∧ scope_of conn p (get_outputs (core s) ++ [wo])) as Hnew.
    { intros p.
      destruct (attachments_consistent _ conn p Hcons') as (k' & Hk' & _ & _ & Hm & _).
      rewrite Hos in Hm. unfold count_of, output_added, handle_new_output in Hk'.
      rewrite send_event_signal_map in Hk'. simpl in Hk'.
      rewrite Hreg in Hk'. simpl in Hk'. by simplify_eq. }
    assert (∀ p, (conn, p) ∈ connections (core s) ↔
                 0 < k ∧ scope_of conn p (get_outputs (core s))) as Hold.
    { intros p. destruct Ht as (_ & _ & _ & Hconn). destruct (Hconn conn) as (k' & Hk' & _ & Hm).
      rewrite Hreg in Hk'. apply (f_equal (fmap connected_count)) in Hk'. simpl in Hk'.
      by simplify_eq. }
    split.
    + destruct (attachments_consistent _ conn (output_provider wo) Hcons')
        as (_ & _ & _ & _ & _ & ->).
      destruct (per_output conn) eqn:Hp; simpl.
      * case_bool_decide; case_decide as Hin; try done; exfalso.
        -- apply Hin, Hnew. split; [done|]. apply scope_of_output. split; [done|].
           apply elem_of_app. right. by apply list_elem_of_singleton.
        -- apply Hnew in Hin as [? _]. done.
      * rewrite decide_False; [done|]. intros [_ [? _]%scope_of_output]%Hnew. congruence.
    + intros p Hp.
      destruct (attachments_consistent _ conn p Hcons') as (_ & _ & _ & _ & _ & ->).
      destruct (attachments_consistent s conn p (conj Ht Hsub)) as (_ & _ & _ & _ & _ & ->).
      assert ((conn, p) ∈ connections (core (output_added wo output_json s)) ↔
              (conn, p) ∈ connections (core s)) as Hiff.
      { rewrite Hnew, Hold. destruct p as [|wo'].
        - by rewrite !scope_of_core.
        - rewrite !scope_of_output, elem_of_app, list_elem_of_singleton.
          split; [|tauto]. intros (? & ? & [?| ->]); [done|congruence]. }
      repeat case_decide; try done; exfalso; tauto.
Qed.

(** ** events/watch *)

Lemma is_error_json_error msg : is_error (json_error msg) = true.
Proof. reflexivity. Qed.

Lemma signal_increase_signal_map s n :
  ∃ h, signal_map (signal_increase s n) = <[n := h]> (signal_map s).
Proof.
  unfold signal_increase. destruct (increase_count _ _) as [h w]. by exists h.
Qed.

Lemma count_of_increase_all (names : list string) s n :
  NoDup names →
  (∀ m, m ∈ names → is_Some (signal_map s !! m)) →
  count_of (foldl signal_increase s names) n =
  if decide (n ∈ names) then (λ k, k + 1) <$> count_of s n else count_of s n.
Proof.
  revert s. induction names as [|a names IH]; intros s Hnd Hin; simpl; [done|].
  apply NoDup_cons in Hnd as [Ha Hnd].
  destruct (Hin a) as [h Hh]; [left|].
  rewrite IH; [|done|].
  - rewrite count_of_signal_increase. unfold signal_map_at, count_of. rewrite Hh. simpl.
    destruct (decide (n = a)) as [->|Hne].
    + rewrite decide_False by done. rewrite decide_True by left. by rewrite Hh.
    + destruct (decide (n ∈ names)).
      * rewrite decide_True by (by right). done.
      * rewrite decide_False; [done|]. intros [?|?]%elem_of_cons; done.
  - intros m Hm. destruct (signal_increase_signal_map s a) as [h' ->].
    rewrite lookup_insert_is_Some'. right. apply Hin. by right.
Qed.

Lemma subscribe_clients client events s :
  clients (subscribe client events s) = <[client := events]> (clients s).
Proof.
  unfold subscribe. simpl. f_equal.
  generalize (elements events). intros l. revert s.
  induction l as [|a l IH]; intros s; simpl; [done|].
  rewrite IH. unfold signal_increase. by destruct (increase_count _ _).
Qed.

Lemma count_of_subscribe client events s n :
  events ⊆ dom (signal_map s) →
  count_of (subscribe client events s) n =
  if decide (n ∈ events) then (λ k, k + 1) <$> count_of s n else count_of s n.
Proof.
  intros Hsub. unfold subscribe.
  change (count_of {| signal_map := signal_map ?s'; clients := _; core := _ |} n)
    with (count_of s' n).
  rewrite count_of_increase_all.
  - destruct (decide (n ∈ events)).
    + by rewrite decide_True by (by apply elem_of_elements).
    + by rewrite decide_False by (by rewrite elem_of_elements).
  - apply NoDup_elements.
  - intros m Hm%elem_of_elements. by apply elem_of_dom, Hsub.
Qed.

Lemma subscribe_empty client s :
  subscribe client ∅ s =
  {| signal_map := signal_map s; clients := <[client := ∅]> (clients s); core := core s |}.
Proof. unfold subscribe. by rewrite elements_empty. Qed.

Lemma watch_absent data client s :
  json_get data EVENTS = None →
  on_client_watch data client s = (json_ok, subscribe client (dom (signal_map s)) s).
Proof.
  intros Hget. unfold on_client_watch, WFJSON_OPTIONAL_FIELD, requested_events, contains.
  by rewrite Hget.
Qed.

Lemma watch_array data client s entries :
  json_get data EVENTS = Some (JArray entries) →
  on_client_watch data client s =
  match collect_events (signal_map s) entries ∅ with
  | None => (json_error "Event list contains non-string entries!", s)
  | Some subscribed_to => (json_ok, subscribe client subscribed_to s)
  end.
Proof.
  intros Hget. unfold on_client_watch, WFJSON_OPTIONAL_FIELD, requested_events, contains, at_key.
  by rewrite Hget.
Qed.

Lemma published_is_catalog conn :
  conn ≠ _fullscreened → published_name conn = catalog_name conn.
Proof. by destruct conn. Qed.

Lemma catalog_nonempty : dom signal_map_init ≠ ∅.
Proof.
  intros H. pose proof (catalog_name_in_dom on_view_mapped) as Hin.
  rewrite H in Hin. by apply not_elem_of_empty in Hin.
Qed.

(** A watch never lowers a count: whatever the client had stored before is
    not decremented. *)
Lemma watch_never_decrements (data : json) (client : client_interface_t)
    (s : ipc_rules_t) (ev_name : string) (k : Z) :
  count_of s ev_name = Some k →
  ∃ k', count_of (on_client_watch data client s).2 ev_name = Some k' ∧ k ≤ k'.
Proof.
  intros Hk. unfold on_client_watch.
  destruct (WFJSON_OPTIONAL_FIELD _ _ _ _); [exists k; by split|].
  destruct (requested_events _ _) as [events|] eqn:Hreq; [|exists k; by split].
  cbn [snd]. rewrite count_of_subscribe by (by eapply requested_events_subseteq).
  rewrite Hk. destruct (decide (ev_name ∈ events)); eexists; (split; [done|lia]).
Qed.

(** C9 (non-string entries): when the [events] field is present and holds a
    non-string entry, the handler answers with an error and returns the state
    it was given, so no count and no stored set changes; for an array the
    error is the one about non-string entries, and a field that is not even
    an array is refused by the type check of the field. *)
Theorem C9_non_string_rejected (data : json) (client : client_interface_t)
    (s : ipc_rules_t) (v : json) :
  json_get data EVENTS = Some v →
  Exists (λ sub, is_string sub = false) (json_items v) →
  let r := on_client_watch data client s in
  is_error r.1 = true ∧ r.2 = s ∧
  (is_array v = true → r.1 = json_error "Event list contains non-string entries!").
Proof.
  intros Hget Hex r. destruct (is_array v) eqn:Harr.
  - destruct v; try discriminate. simpl in Hex.
    unfold r. rewrite (watch_array _ _ _ _ Hget).
    by rewrite (collect_events_non_string _ _ _ Hex).
  - unfold r, on_client_watch, WFJSON_OPTIONAL_FIELD. rewrite Hget, Harr. done.
Qed.

Lemma watch_absent_spec (data : json) (client : client_interface_t) (s : ipc_rules_t) :
  consistent s →
  json_get data EVENTS = None →
  let r := on_client_watch data client s in
  r.1 = json_ok ∧
  clients r.2 !! client = Some (dom signal_map_init) ∧
  (∀ conn, count_of r.2 (catalog_name conn) =
           (λ k, k + 1) <$> count_of s (catalog_name conn)) ∧
  (∀ name, name ∈ dom signal_map_init → client ∈ recipients name r.2).
Proof.
  intros [Ht Hsub] Hget r.
  assert (dom (signal_map s) = dom signal_map_init) as Hdom by apply Ht.
  unfold r. rewrite (watch_absent _ _ _ Hget). cbn [fst snd]. rewrite Hdom.
  split_and!; [done| | |].
  - by rewrite subscribe_clients, lookup_insert_eq.
  - intros conn. rewrite count_of_subscribe by (by rewrite Hdom).
    by rewrite decide_True by apply catalog_name_in_dom.
  - intros name Hname. apply elem_of_recipients. exists (dom signal_map_init).
    rewrite subscribe_clients, lookup_insert_eq. auto.
Qed.

(** C3, as the code has it: with no [events] field the handler answers ok
    and stores the whole catalog (the seventeen names of [signal_map], which
    is not the empty set) under the client, counts every catalog name once
    more, and from then on the client is a recipient of every event published
    under a catalog name. *)
Theorem C3_absent_field_stores_catalog (data : json) (client : client_interface_t)
    (s : ipc_rules_t) :
  reachable s →
  json_get data EVENTS = None →
  let r := on_client_watch data client s in
  r.1 = json_ok ∧
  clients r.2 !! client = Some (dom signal_map_init) ∧
  dom signal_map_init ≠ ∅ ∧
  (∀ conn, count_of r.2 (catalog_name conn) =
           (λ k, k + 1) <$> count_of s (catalog_name conn)) ∧
  (∀ name, name ∈ dom signal_map_init → client ∈ recipients name r.2) ∧
  (∀ conn fields, conn ≠ _fullscreened →
     (client, event_json (published_name conn) fields)
       ∈ outbox (core (callback conn fields r.2))).
Proof.
  intros Hr Hget r.
  destruct (watch_absent_spec data client s (reachable_consistent s Hr) Hget)
    as (Hok & Hcl & Hcount & Hrec).
  split_and!; [done|done|apply catalog_nonempty|done|done|].
  intros conn fields Hconn. unfold callback. rewrite send_event_outbox.
  apply elem_of_app. right. apply list_elem_of_fmap.
  exists client. split; [done|]. apply Hrec.
  rewrite published_is_catalog by done. apply catalog_name_in_dom.
Qed.

(** An explicitly empty list and an absent field both answer ok but leave
    different states.  The empty list stores the empty set and touches neither
    [signal_map] nor the host, and the client is then a recipient of every
    published event name; the absent field stores the whole catalog, counts
    every catalog name once more, and the client is a recipient of the catalog
    names. *)
Lemma watch_empty_list_versus_absent (data_empty data_absent : json)
    (client : client_interface_t) (s : ipc_rules_t) :
  reachable s →
  json_get data_empty EVENTS = Some (JArray []) →
  json_get data_absent EVENTS = None →
  let e := on_client_watch data_empty client s in
  let a := on_client_watch data_absent client s in
  e.1 = json_ok ∧ a.1 = json_ok ∧
  clients e.2 !! client = Some ∅ ∧
  clients a.2 !! client = Some (dom signal_map_init) ∧
  signal_map e.2 = signal_map s ∧ core e.2 = core s ∧
  (∀ conn, count_of a.2 (catalog_name conn) =
           (λ k, k + 1) <$> count_of s (catalog_name conn)) ∧
  (∀ name, client ∈ recipients name e.2) ∧
  (∀ conn, client ∈ recipients (catalog_name conn) a.2).
Proof.
  intros Hr Hempty Habsent e a.
  destruct (watch_absent_spec data_absent client s (reachable_consistent s Hr) Habsent)
    as (Ha1 & Ha2 & Ha3 & Ha4).
  unfold e. rewrite (watch_array _ _ _ _ Hempty). cbn [collect_events fst snd].
  rewrite subscribe_empty. cbn [signal_map clients core].
  split_and!; try done.
  - by rewrite lookup_insert_eq.
  - intros name. apply elem_of_recipients. exists ∅. cbn [clients].
    rewrite lookup_insert_eq. auto.
  - intros conn. apply Ha4, catalog_name_in_dom.
Qed.

(** C7 (the fullscreen event): the connection registered under the catalog
    name ["view-fullscreened"] publishes under the name ["view-fullscreen"],
    which is not a catalog name and so is in no stored set.  In every reachable
    state a client whose stored set contains ["view-fullscreened"] is therefore
    not among the clients the callback sends to; the callback sends exactly to
    the clients whose stored set is empty. *)
Theorem C7_fullscreen_name_mismatch (s : ipc_rules_t) (c : client_interface_t)
    (events : gset string) (fields : list (string * json)) :
  reachable s →
  clients s !! c = Some events →
  ("view-fullscreened" : string) ∈ events →
  catalog_name _fullscreened = "view-fullscreened"%string ∧
  published_name _fullscreened = "view-fullscreen"%string ∧
  outbox (core (callback _fullscreened fields s)) =
    outbox (core s) ++
    ((λ c', (c', event_json "view-fullscreen" fields)) <$> recipients "view-fullscreen" s) ∧
  (c ∉ recipients "view-fullscreen" s) ∧
  (∀ c', c' ∈ recipients "view-fullscreen" s ↔ clients s !! c' = Some ∅).
Proof.
  intros Hr Hc Hin. pose proof (reachable_consistent s Hr) as [_ Hsub].
  assert (∀ c', c' ∈ recipients "view-fullscreen" s ↔ clients s !! c' = Some ∅) as Hrec.
  { intros c'. rewrite elem_of_recipients. split.
    - intros (ev & Hev & [->|Hfs]); [done|].
      exfalso. apply fullscreen_not_in_catalog. by eapply Hsub.
    - intros Hev. exists ∅. auto. }
  split_and!; [done|done| | |done].
  - unfold callback. simpl published_name. apply send_event_outbox.
  - rewrite Hrec, Hc. intros [= ->]. by apply not_elem_of_empty in Hin.
Qed.

(** ** Field checks *)

Lemma expect_field_error data field is_type type err :
  WFJSON_EXPECT_FIELD data field is_type type = Some err → is_error err = true.
Proof.
  unfold WFJSON_EXPECT_FIELD. destruct (json_get data field) as [v|].
  - destruct (is_type v); [done|]. by intros [= <-].
  - by intros [= <-].
Qed.

Lemma optional_field_error data field is_type type err :
  WFJSON_OPTIONAL_FIELD data field is_type type = Some err → is_error err = true.
Proof.
  unfold WFJSON_OPTIONAL_FIELD. destruct (json_get data field) as [v|]; [|done].
  destruct (is_type v); [done|]. by intros [= <-].
Qed.

(** ** window-rules/configure-view *)

Section configure_view_properties.

Context {desktop_t view_t toplevel_t geometry_t : Type}.
Variable find_view_by_id : json → desktop_t → option view_t.
Variable toplevel_cast : view_t → option toplevel_t.
Variable find_output_by_id : json → desktop_t → option output_t.
Variable geometry_from_json : json → option geometry_t.
Variable move_view_to_output : toplevel_t → output_t → bool → desktop_t → desktop_t.
Variable set_geometry : toplevel_t → geometry_t → desktop_t → desktop_t.
Variable set_sticky : toplevel_t → json → desktop_t → desktop_t.

Abbreviation handler :=
  (configure_view find_view_by_id toplevel_cast find_output_by_id geometry_from_json
     move_view_to_output set_geometry set_sticky).



End configure_view_properties.

(** ** input/configure-device *)

Lemma to_int64_small (u : Z) : 0 ≤ u < 2 ^ 63 → to_int64 u = u.
Proof.
  intros Hu. unfold to_int64. rewrite Z.mod_small by lia. by rewrite decide_True by lia.
Qed.

Lemma to_int64_large (u : Z) : 2 ^ 63 ≤ u < 2 ^ 64 → to_int64 u = u - 2 ^ 64.
Proof.
  intros Hu. unfold to_int64. rewrite Z.mod_small by lia. by rewrite decide_False by lia.
Qed.

Lemma configure_first_none (data : json) (devices : list input_device_t) :
  Forall (λ d, intptr_eq_json (get_wlr_handle d) (at_key data "id") = false) devices →
  configure_first data devices = None.
Proof.
  induction 1 as [|d devices Hd _ IH]; simpl; [done|]. by rewrite Hd, IH.
Qed.

(** C10, as the code has it: [id] must be a JSON unsigned number.  For an
    unsigned [id] and a boolean [enabled], when no device's handle equals the
    id as the handler compares them (the id read as a signed 64-bit integer)
    the answer is the error "Unknown input device!" and the devices are
    returned as they were; that is the case in particular when every handle
    is a non-negative address below 2^63, the id is below 2^64 and no device
    has that id.  A signed (negative) integer [id] is refused by the type
    check of the field, with the error naming the field, again without
    touching any device. *)
Theorem C10_unknown_device (data : json) (devices : list input_device_t)
    (id : Z) (enabled : bool) :
  json_get data "enabled" = Some (JBool enabled) →
  (json_get data "id" = Some (JUnsigned id) →
   Forall (λ d, get_wlr_handle d ≠ to_int64 id) devices →
   configure_input_device data devices = (json_error "Unknown input device!", devices)) ∧
  (json_get data "id" = Some (JUnsigned id) → 0 ≤ id < 2 ^ 64 →
   Forall (λ d, 0 ≤ get_wlr_handle d < 2 ^ 63 ∧ get_wlr_handle d ≠ id) devices →
   configure_input_device data devices = (json_error "Unknown input device!", devices)) ∧
  (json_get data "id" = Some (JInt id) →
   configure_input_device data devices =
     (wrong_type_error "id" "number_unsigned", devices)).
Proof.
  intros Hen.
  assert (json_get data "id" = Some (JUnsigned id) →
          Forall (λ d, get_wlr_handle d ≠ to_int64 id) devices →
          configure_input_device data devices
            = (json_error "Unknown input device!", devices)) as Hcode.
  { intros Hid Hdev. unfold configure_input_device, WFJSON_EXPECT_FIELD.
    rewrite Hid, Hen. simpl. rewrite configure_first_none; [done|].
    eapply Forall_impl; [exact Hdev|]. intros d Hne. simpl in *.
    unfold at_key. rewrite Hid. simpl. by apply bool_decide_eq_false. }
  split_and!.
  - exact Hcode.
  - intros Hid Hrange Hdev. apply Hcode; [done|].
    eapply Forall_impl; [exact Hdev|]. intros d [Hd Hne]. simpl in *.
    destruct (decide (id < 2 ^ 63)).
    + rewrite to_int64_small by lia. done.
    + rewrite to_int64_large by lia. lia.
  - intros Hid. unfold configure_input_device, WFJSON_EXPECT_FIELD. by rewrite Hid.
Qed.

(** Outside that range the comparison is not equality of the numbers: the
    id 2^64 - 4096 reads as -4096 and selects a device whose handle is
    -4096. *)
Lemma configure_input_device_wrapped_id :
  let device := {| get_wlr_handle := -4096; is_enabled := true |} in
  configure_input_device (Sample.toggle (JUnsigned (2 ^ 64 - 4096))) [device] =
    (json_ok, [set_enabled false device]).
Proof. vm_compute. reflexivity. Qed.

(** ** Sample runs *)

Lemma reachable_watch data client s :
  reachable s → reachable (on_client_watch data client s).2.
Proof. intros Hr. eapply rtc_r; [exact Hr|]. apply step_watch. Defined.

Lemma reachable_disconnect client s :
  reachable s → reachable (on_client_disconnected client s).
Proof. intros Hr. eapply rtc_r; [exact Hr|]. apply step_disconnect. Defined.

Lemma reachable_output_added wo output_json s :
  reachable s → wo ∉ get_outputs (core s) → reachable (output_added wo output_json s).
Proof. intros Hr Hf. eapply rtc_r; [exact Hr|]. by apply step_output_added. Defined.

Lemma reachable_initial : reachable initial_state.
Proof. apply rtc_refl. Defined.

Lemma reachable_int_initial : reachable_int initial_state.
Proof. apply rtc_refl. Defined.

Lemma reachable_int_watch data client s :
  reachable_int s → counts_in_int (on_client_watch data client s).2 →
  reachable_int (on_client_watch data client s).2.
Proof. intros Hr Hfit. eapply rtc_r; [exact Hr|]. split; [apply step_watch|exact Hfit]. Defined.

Lemma reachable_int_output_added wo output_json s :
  reachable_int s → wo ∉ get_outputs (core s) →
  reachable_int (output_added wo output_json s).
Proof.
  intros Hr Hf. eapply rtc_r; [exact Hr|]. split; [by apply step_output_added|].
  eapply counts_in_int_same_map; [|by apply reachable_int_counts].
  unfold output_added, handle_new_output. by rewrite send_event_signal_map.
Defined.

Lemma reachable_rewatched_gone : reachable Sample.rewatched_gone.
Proof.
  apply reachable_disconnect, reachable_watch, reachable_watch, reachable_initial.
Defined.

(** C1 (ref-count exactness) on a re-watch: a client watches
    ["view-mapped"], watches again with ["view-tiled"] and disconnects.  The
    state is reachable, no client is registered any more, yet the count of
    ["view-mapped"] is still 1 and its connection is still attached to the
    core. *)
Theorem C1_rewatch_leaves_source_attached :
  reachable Sample.rewatched_gone ∧
  clients Sample.rewatched_gone = ∅ ∧
  count_of Sample.rewatched_gone "view-mapped" = Some 1 ∧
  count_of Sample.rewatched_gone "view-tiled" = Some 0 ∧
  connections (core Sample.rewatched_gone) = [(on_view_mapped, core_provider)] ∧
  attachments core_provider on_view_mapped (core Sample.rewatched_gone) = 1%nat.
Proof. split; [apply reachable_rewatched_gone|]. split_and!; vm_compute; reflexivity. Qed.

(** C2 (re-watch replaces) on the same run: the second watch stores the new
    set and counts ["view-tiled"], the client is no longer sent
    ["view-mapped"] events, but the count of ["view-mapped"] stays at 1
    instead of returning to the 0 it had before the first watch. *)
Theorem C2_rewatch_keeps_old_count :
  count_of initial_state "view-mapped" = Some 0 ∧
  count_of Sample.watched_mapped "view-mapped" = Some 1 ∧
  clients Sample.watched_mapped !! Sample.alice = Some {["view-mapped"%string]} ∧
  count_of Sample.rewatched_tiled "view-mapped" = Some 1 ∧
  count_of Sample.rewatched_tiled "view-tiled" = Some 1 ∧
  clients Sample.rewatched_tiled !! Sample.alice = Some {["view-tiled"%string]} ∧
  recipients "view-mapped" Sample.rewatched_tiled = [] ∧
  recipients "view-tiled" Sample.rewatched_tiled = [Sample.alice].
Proof. split_and!; vm_compute; reflexivity. Qed.

(** C3 fails as stated: after a watch without the [events] field the stored
    set is the catalog, not the empty set, and the client is not among the
    recipients of "output-added" or "output-removed": announcing a new
    output sends it nothing. *)
Lemma C3_absent_field_counterexample :
  clients Sample.watched_absent !! Sample.alice ≠ Some ∅ ∧
  recipients "output-added" Sample.watched_absent = [] ∧
  recipients "output-removed" Sample.watched_absent = [] ∧
  outbox (core (handle_new_output 0%nat JNull Sample.watched_absent)) = [].
Proof.
  split; [|split_and!; vm_compute; reflexivity].
  intros H. apply (f_equal (λ o, bool_decide (o = Some ∅))) in H.
  vm_compute in H. discriminate H.
Qed.

(** The theorem of C3 on the first watch of a run. *)
Lemma C3_absent_field_witness :
  reachable initial_state ∧ json_get Sample.absent EVENTS = None ∧
  clients Sample.watched_absent !! Sample.alice = Some (dom signal_map_init) ∧
  (∀ name, name ∈ dom signal_map_init → Sample.alice ∈ recipients name Sample.watched_absent).
Proof.
  assert (reachable initial_state) as Hr by apply reachable_initial.
  assert (json_get Sample.absent EVENTS = None) as Hget by reflexivity.
  split_and!; [done|done| |];
    apply (C3_absent_field_stores_catalog Sample.absent Sample.alice initial_state Hr Hget).
Defined.

(** C8 (an empty list and an absent field) on the first watch of a run: the
    absent field stores the catalog, counts ["view-mapped"] and attaches its
    connection to the core.  The empty list stores the empty set, which
    [send_event_to_subscribes] reads as every event (the client is a recipient
    of ["view-mapped"] and of ["output-added"]), but it counts nothing and
    attaches nothing: the signal of ["view-mapped"] has no connection to run
    and reaches no one, where after the absent field it is sent to the
    client.  The two requests do not behave identically. *)
Theorem C8_empty_list_attaches_nothing :
  reachable Sample.watched_empty ∧ reachable Sample.watched_absent ∧
  json_get (events_of []) EVENTS = Some (JArray []) ∧
  json_get Sample.absent EVENTS = None ∧
  (on_client_watch (events_of []) Sample.alice initial_state).1 = json_ok ∧
  (on_client_watch Sample.absent Sample.alice initial_state).1 = json_ok ∧
  clients Sample.watched_empty !! Sample.alice = Some ∅ ∧
  clients Sample.watched_absent !! Sample.alice ≠ Some ∅ ∧
  recipients "view-mapped" Sample.watched_empty = [Sample.alice] ∧
  recipients "view-mapped" Sample.watched_absent = [Sample.alice] ∧
  count_of Sample.watched_empty "view-mapped" = Some 0 ∧
  count_of Sample.watched_absent "view-mapped" = Some 1 ∧
  attachments core_provider on_view_mapped (core Sample.watched_empty) = 0%nat ∧
  attachments core_provider on_view_mapped (core Sample.watched_absent) = 1%nat ∧
  outbox (core (emit core_provider on_view_mapped [] Sample.watched_empty)) = [] ∧
  outbox (core (emit core_provider on_view_mapped [] Sample.watched_absent)) =
    [(Sample.alice, event_json "view-mapped" [])] ∧
  recipients "output-added" Sample.watched_empty = [Sample.alice] ∧
  recipients "output-added" Sample.watched_absent = [].
Proof.
  split; [apply reachable_watch, reachable_initial|].
  split; [apply reachable_watch, reachable_initial|].
  do 5 (split; [vm_compute; reflexivity|]).
  split; [|split_and!; vm_compute; reflexivity].
  intros H. apply (f_equal (λ o, bool_decide (o = Some ∅))) in H.
  vm_compute in H. discriminate H.
Qed.



(** C10 fails as stated: an integer [id] of -1, which no device has, is
    answered with the type error of the field and not with "Unknown input
    device!". *)
Lemma C10_negative_id_counterexample :
  let r := configure_input_device (Sample.toggle (JInt (-1))) [Sample.pointer] in
  Forall (λ d, get_wlr_handle d ≠ -1) [Sample.pointer] ∧
  r.1 = wrong_type_error "id" "number_unsigned" ∧
  r.1 ≠ json_error "Unknown input device!" ∧
  r.2 = [Sample.pointer].
Proof.
  split_and!.
  - apply Forall_singleton. vm_compute. discriminate.
  - vm_compute; reflexivity.
  - vm_compute. discriminate.
  - vm_compute; reflexivity.
Qed.

(** The theorem of C10 for the id 7 and one device at address 4096. *)
Lemma C10_unknown_device_witness :
  json_get (Sample.toggle (JUnsigned 7)) "enabled" = Some (JBool false) ∧
  Forall (λ d, 0 ≤ get_wlr_handle d < 2 ^ 63 ∧ get_wlr_handle d ≠ 7) [Sample.pointer] ∧
  json_get (Sample.toggle (JUnsigned 7)) "id" = Some (JUnsigned 7) ∧
  0 ≤ 7 < 2 ^ 64 ∧
  configure_input_device (Sample.toggle (JUnsigned 7)) [Sample.pointer] =
    (json_error "Unknown input device!", [Sample.pointer]).
Proof.
  assert (json_get (Sample.toggle (JUnsigned 7)) "enabled" = Some (JBool false)) as He
    by reflexivity.
  assert (Forall (λ d, 0 ≤ get_wlr_handle d < 2 ^ 63 ∧ get_wlr_handle d ≠ 7)
            [Sample.pointer]) as Hd.
  { repeat constructor; simpl; lia. }
  assert (json_get (Sample.toggle (JUnsigned 7)) "id" = Some (JUnsigned 7)) as Hi
    by reflexivity.
  assert (0 ≤ 7 < 2 ^ 64) as Hr by lia.
  refine (conj He (conj Hd (conj Hi (conj Hr _)))).
  exact (proj1 (proj2 (C10_unknown_device (Sample.toggle (JUnsigned 7)) [Sample.pointer]
                         7 false He)) Hi Hr Hd).
Defined.

(** The theorem of C9 on a list with a number in it. *)
Lemma C9_non_string_rejected_witness :
  json_get (JObject [(EVENTS, JArray [JString "view-mapped"; JUnsigned 3])]) EVENTS
    = Some (JArray [JString "view-mapped"; JUnsigned 3]) ∧
  Exists (λ sub, is_string sub = false) [JString "view-mapped"; JUnsigned 3] ∧
  (on_client_watch (JObject [(EVENTS, JArray [JString "view-mapped"; JUnsigned 3])])
     Sample.alice Sample.watched_mapped).2 = Sample.watched_mapped.
Proof.
  assert (json_get (JObject [(EVENTS, JArray [JString "view-mapped"; JUnsigned 3])]) EVENTS
          = Some (JArray [JString "view-mapped"; JUnsigned 3])) as Hget by reflexivity.
  assert (Exists (λ sub, is_string sub = false) [JString "view-mapped"; JUnsigned 3]) as Hex.
  { apply Exists_cons_tl, Exists_cons_hd. reflexivity. }
  split_and!; [done|done|].
  apply (C9_non_string_rejected _ Sample.alice Sample.watched_mapped _ Hget Hex).
Defined.

Lemma reachable_int_watched_tiled : reachable_int Sample.watched_tiled.
Proof.
  apply reachable_int_watch.
  - apply reachable_int_output_added; [apply reachable_int_initial|apply not_elem_of_nil].
  - apply (bool_decide_unpack _). vm_compute. exact I.
Defined.

(** The theorem of C5 after one output and one watch of ["view-tiled"],
    for a second output. *)
Lemma C5_idempotent_attach_witness :
  reachable_int Sample.watched_tiled ∧
  counts_in_int (signal_increase Sample.watched_tiled (catalog_name _tiled)) ∧
  (1%nat ∉ get_outputs (core Sample.watched_tiled)) ∧
  ∃ k, count_of Sample.watched_tiled (catalog_name _tiled) = Some k ∧
       (∀ p, attachments p _tiled (core Sample.watched_tiled) ≤ 1)%nat ∧
       attachments (output_provider 1%nat) _tiled
         (core (output_added 1%nat JNull Sample.watched_tiled)) =
       (if per_output _tiled && bool_decide (0 < k)%Z then 1 else 0)%nat.
Proof.
  assert (1%nat ∉ get_outputs (core Sample.watched_tiled)) as Hfresh.
  { assert (get_outputs (core Sample.watched_tiled) = [0%nat]) as ->
      by (vm_compute; reflexivity).
    intros H%list_elem_of_singleton. discriminate H. }
  assert (counts_in_int (signal_increase Sample.watched_tiled (catalog_name _tiled)))
    as Hfit by (apply (bool_decide_unpack _); vm_compute; exact I).
  refine (conj reachable_int_watched_tiled (conj Hfit (conj Hfresh _))).
  destruct (C5_idempotent_attach Sample.watched_tiled _tiled 1%nat JNull
              reachable_int_watched_tiled Hfit Hfresh) as (k & Hk & _ & Hle & _ & Hnew & _).
  exists k. exact (conj Hk (conj Hle Hnew)).
Defined.

Lemma reachable_watched_fullscreened : reachable Sample.watched_fullscreened.
Proof. apply reachable_watch, reachable_initial. Defined.

(** The theorem of C7 for a client that watches ["view-fullscreened"]. *)
Lemma C7_fullscreen_name_mismatch_witness :
  reachable Sample.watched_fullscreened ∧
  clients Sample.watched_fullscreened !! Sample.alice = Some {["view-fullscreened"%string]} ∧
  ("view-fullscreened" : string) ∈ ({["view-fullscreened"%string]} : gset string) ∧
  (Sample.alice ∉ recipients "view-fullscreen" Sample.watched_fullscreened).
Proof.
  assert (clients Sample.watched_fullscreened !! Sample.alice
          = Some {["view-fullscreened"%string]}) as Hc by (vm_compute; reflexivity).
  assert (("view-fullscreened" : string) ∈ ({["view-fullscreened"%string]} : gset string))
    as Hin by (by apply elem_of_singleton).
  split_and!; [apply reachable_watched_fullscreened|done|done|].
  apply (C7_fullscreen_name_mismatch Sample.watched_fullscreened Sample.alice
           {["view-fullscreened"%string]} [] reachable_watched_fullscreened Hc Hin).
Defined.

(** * Further properties *)

(** ** Counting down *)

Lemma tracked_shaped need sm w : tracked need sm w → shaped sm.
Proof.
  intros (_ & _ & _ & Hconn) conn. destruct (Hconn conn) as (k & Hk & _). eauto.
Qed.

Lemma signal_decrease_registered s conn k :
  signal_map s !! catalog_name conn = Some (with_count (registration conn) k) →
  let s' := signal_decrease s (catalog_name conn) in
  signal_map s' = <[catalog_name conn := with_count (registration conn) (k - 1)]> (signal_map s) ∧
  clients s' = clients s ∧
  get_outputs (core s') = get_outputs (core s) ∧
  outbox (core s') = outbox (core s) ∧
  connections (core s') =
    (if decide (k - 1 > 0) then connections (core s)
     else filter (λ a, a.1 ≠ conn) (connections (core s))).
Proof.
  intros Hk. unfold signal_decrease, signal_map_at. rewrite Hk. simpl.
  pose proof (decrease_count_registered conn k (core s)) as Hdec.
  destruct (decrease_count (with_count (registration conn) k) (core s)) as [h w'].
  simpl in Hdec. destruct Hdec as (-> & Ho & Hb & Hc). done.
Qed.

Lemma shaped_insert sm conn k :
  shaped sm → shaped (<[catalog_name conn := with_count (registration conn) k]> sm).
Proof.
  intros Hs conn'. destruct (decide (conn' = conn)) as [->|Hne].
  - exists k. by rewrite lookup_insert_eq.
  - destruct (Hs conn') as [k' Hk']. exists k'.
    by rewrite lookup_insert_ne by (intros Heq; by apply (inj catalog_name) in Heq).
Qed.

Lemma increase_all_frame (names : list string) s :
  shaped (signal_map s) →
  (∀ n, n ∈ names → n ∈ dom signal_map_init) →
  let s' := foldl signal_increase s names in
  shaped (signal_map s') ∧
  get_outputs (core s') = get_outputs (core s) ∧ outbox (core s') = outbox (core s).
Proof.
  revert s. induction names as [|n names IH]; intros s Hs Hin; simpl; [done|].
  destruct (catalog_complete n) as [conn ->]; [apply Hin; left|].
  destruct (Hs conn) as [k Hk].
  destruct (signal_increase_registered s conn k Hk) as (Hsm & _ & Ho & Hb & _).
  destruct (IH (signal_increase s (catalog_name conn))) as (Hs' & Ho' & Hb').
  - rewrite Hsm. by apply shaped_insert.
  - intros m Hm. apply Hin. by right.
  - split_and!; [done|congruence|congruence].
Qed.

Lemma decrease_all_frame (names : list string) s :
  shaped (signal_map s) →
  (∀ n, n ∈ names → n ∈ dom signal_map_init) →
  let s' := foldl signal_decrease s names in
  shaped (signal_map s') ∧ clients s' = clients s ∧
  get_outputs (core s') = get_outputs (core s) ∧ outbox (core s') = outbox (core s).
Proof.
  revert s. induction names as [|n names IH]; intros s Hs Hin; simpl; [done|].
  destruct (catalog_complete n) as [conn ->]; [apply Hin; left|].
  destruct (Hs conn) as [k Hk].
  destruct (signal_decrease_registered s conn k Hk) as (Hsm & Hcl & Ho & Hb & _).
  destruct (IH (signal_decrease s (catalog_name conn))) as (Hs' & Hcl' & Ho' & Hb').
  - rewrite Hsm. by apply shaped_insert.
  - intros m Hm. apply Hin. by right.
  - split_and!; [done|congruence|congruence|congruence].
Qed.

Lemma count_of_signal_decrease s n m :
  count_of (signal_decrease s n) m =
  if decide (m = n) then Some (connected_count (signal_map_at s n) - 1)
  else count_of s m.
Proof.
  unfold count_of, signal_decrease, decrease_count. simpl.
  case_decide as Hgt; simpl; (case_decide as Hmn;
    [subst; by rewrite lookup_insert_eq|by rewrite lookup_insert_ne]).
Qed.

Lemma signal_decrease_signal_map s n :
  ∃ h, signal_map (signal_decrease s n) = <[n := h]> (signal_map s).
Proof.
  unfold signal_decrease. destruct (decrease_count _ _) as [h w]. by exists h.
Qed.

Lemma count_of_decrease_all (names : list string) s n :
  NoDup names →
  (∀ m, m ∈ names → is_Some (signal_map s !! m)) →
  count_of (foldl signal_decrease s names) n =
  if decide (n ∈ names) then (λ k, k - 1) <$> count_of s n else count_of s n.
Proof.
  revert s. induction names as [|a names IH]; intros s Hnd Hin; simpl; [done|].
  apply NoDup_cons in Hnd as [Ha Hnd].
  destruct (Hin a) as [h Hh]; [left|].
  rewrite IH; [|done|].
  - rewrite count_of_signal_decrease. unfold signal_map_at, count_of. rewrite Hh. simpl.
    destruct (decide (n = a)) as [->|Hne].
    + rewrite decide_False by done. rewrite decide_True by left. by rewrite Hh.
    + destruct (decide (n ∈ names)).
      * rewrite decide_True by (by right). done.
      * rewrite decide_False; [done|]. intros [?|?]%elem_of_cons; done.
  - intros m Hm. destruct (signal_decrease_signal_map s a) as [h' ->].
    rewrite lookup_insert_is_Some'. right. apply Hin. by right.
Qed.

Lemma holders_positive ev_name c (events : gset string) cl :
  cl !! c = Some events → ev_name ∈ events → 1 ≤ holders ev_name cl.
Proof.
  intros Hc Hin. pose proof (holders_delete ev_name c events cl Hc) as Hd.
  pose proof (holders_nonneg ev_name (delete c cl)).
  rewrite decide_True in Hd by done. lia.
Qed.

Lemma disconnect_effect (s : ipc_rules_t) (c : client_interface_t) :
  consistent s →
  let s' := on_client_disconnected c s in
  clients s' !! c = None ∧
  (∀ name, c ∉ recipients name s') ∧
  (∀ c', c' ≠ c → clients s' !! c' = clients s !! c') ∧
  (∀ n, count_of s' n =
        if decide (n ∈ default ∅ (clients s !! c))
        then (λ k, k - 1) <$> count_of s n else count_of s n) ∧
  outbox (core s') = outbox (core s) ∧
  get_outputs (core s') = get_outputs (core s).
Proof.
  intros [Ht Hsub] s'.
  assert (dom (signal_map s) = dom signal_map_init) as Hdom by apply Ht.
  set (events := default ∅ (clients s !! c)).
  assert (events ⊆ dom signal_map_init) as Hev.
  { unfold events. destruct (clients s !! c) eqn:Hc; [by eapply Hsub|]. simpl.
    apply empty_subseteq. }
  destruct (decrease_all_frame (elements events) s (tracked_shaped _ _ _ Ht))
    as (_ & Hcl & Ho & Hb).
  { intros n Hn%elem_of_elements. by apply Hev. }
  assert (clients s' = delete c (clients s)) as Hcs.
  { unfold s', on_client_disconnected. cbn [clients]. fold events. by rewrite Hcl. }
  split_and!.
  - rewrite Hcs. apply lookup_delete_eq.
  - intros name [ev [Hc _]]%elem_of_recipients. rewrite Hcs, lookup_delete_eq in Hc. done.
  - intros c' Hne. rewrite Hcs. by apply lookup_delete_ne.
  - intros n. unfold s', on_client_disconnected. fold events.
    change (count_of {| signal_map := signal_map ?s0; clients := _; core := _ |} n)
      with (count_of s0 n).
    rewrite count_of_decrease_all.
    + destruct (decide (n ∈ events)).
      * by rewrite decide_True by (by apply elem_of_elements).
      * by rewrite decide_False by (by rewrite elem_of_elements).
    + apply NoDup_elements.
    + intros m Hm%elem_of_elements. apply elem_of_dom. rewrite Hdom. by apply Hev.
  - apply Hb.
  - apply Ho.
Qed.

(** X1 (disconnect cleanup): in every reachable state, when a client
    disconnects its entry is erased and it is a recipient of no event any
    more, the other clients keep their sets, the count of every name of its
    stored set goes down by exactly one and no other count moves, and nothing
    is sent and no output is touched. *)
Theorem X1_disconnect_cleanup (s : ipc_rules_t) (c : client_interface_t) :
  reachable s →
  let s' := on_client_disconnected c s in
  clients s' !! c = None ∧
  (∀ name, c ∉ recipients name s') ∧
  (∀ c', c' ≠ c → clients s' !! c' = clients s !! c') ∧
  (∀ n, count_of s' n =
        if decide (n ∈ default ∅ (clients s !! c))
        then (λ k, k - 1) <$> count_of s n else count_of s n) ∧
  outbox (core s') = outbox (core s) ∧
  get_outputs (core s') = get_outputs (core s).
Proof. intros Hr. by apply disconnect_effect, reachable_consistent. Qed.

(** ** What a watch does *)

Lemma subscribe_effect (c : client_interface_t) (events : gset string) (s : ipc_rules_t) :
  consistent s → events ⊆ dom signal_map_init →
  let s' := subscribe c events s in
  clients s' = <[c := events]> (clients s) ∧
  (∀ n, count_of s' n =
        if decide (n ∈ events) then (λ k, k + 1) <$> count_of s n else count_of s n) ∧
  outbox (core s') = outbox (core s) ∧
  get_outputs (core s') = get_outputs (core s).
Proof.
  intros [Ht Hsub] Hev s'.
  assert (dom (signal_map s) = dom signal_map_init) as Hdom by apply Ht.
  destruct (increase_all_frame (elements events) s (tracked_shaped _ _ _ Ht))
    as (_ & Ho & Hb).
  { intros n Hn%elem_of_elements. by apply Hev. }
  split_and!.
  - apply subscribe_clients.
  - intros n. apply count_of_subscribe. by rewrite Hdom.
  - apply Hb.
  - apply Ho.
Qed.

Lemma watch_effect (data : json) (c : client_interface_t) (s : ipc_rules_t) :
  consistent s →
  let r := on_client_watch data c s in
  (is_error r.1 = true ∧ r.2 = s) ∨
  (∃ events, requested_events data (signal_map s) = Some events ∧
             events ⊆ dom signal_map_init ∧
             r = (json_ok, subscribe c events s)).
Proof.
  intros Hc r. unfold r, on_client_watch.
  destruct (WFJSON_OPTIONAL_FIELD _ _ _ _) as [err|] eqn:Hopt.
  { left. split; [by eapply optional_field_error|done]. }
  destruct (requested_events _ _) as [events|] eqn:Hreq; [|left; by split].
  right. exists events. split_and!; [done| |done].
  apply requested_events_subseteq in Hreq.
  destruct Hc as [Ht _]. by replace (dom signal_map_init) with (dom (signal_map s))
    by apply Ht.
Qed.

Lemma same_counts_same_attachments (sa sb : ipc_rules_t) :
  consistent sa → consistent sb →
  (∀ n, count_of sa n = count_of sb n) →
  get_outputs (core sa) = get_outputs (core sb) →
  signal_map sa = signal_map sb ∧ connections (core sa) ≡ₚ connections (core sb).
Proof.
  intros [(Hda & _ & Hna & Hca) _] [(Hdb & _ & Hnb & Hcb) _] Hcount Hout.
  assert (∀ conn, ∃ k,
            signal_map sa !! catalog_name conn = Some (with_count (registration conn) k) ∧
            signal_map sb !! catalog_name conn = Some (with_count (registration conn) k) ∧
            (∀ p, (conn, p) ∈ connections (core sa) ↔ (conn, p) ∈ connections (core sb)))
    as Hboth.
  { intros conn. destruct (Hca conn) as (ka & Hka & _ & Hma).
    destruct (Hcb conn) as (kb & Hkb & _ & Hmb).
    specialize (Hcount (catalog_name conn)). unfold count_of in Hcount.
    rewrite Hka, Hkb in Hcount. simpl in Hcount. simplify_eq.
    exists kb. split_and!; [done|done|]. intros p. by rewrite Hma, Hmb, Hout. }
  split.
  - apply map_eq. intros n. destruct (decide (n ∈ dom signal_map_init)) as [Hin|Hin].
    + destruct (catalog_complete n Hin) as [conn ->].
      destruct (Hboth conn) as (k & -> & -> & _). done.
    + assert (signal_map sa !! n = None) as -> by (apply not_elem_of_dom; by rewrite Hda).
      assert (signal_map sb !! n = None) as -> by (apply not_elem_of_dom; by rewrite Hdb).
      done.
  - apply NoDup_Permutation; [done|done|]. intros [conn p].
    destruct (Hboth conn) as (_ & _ & _ & Hm). apply Hm.
Qed.

(** ** The model and the 32-bit counts along a run *)

Lemma count_of_signal_map_at s n k :
  count_of s n = Some k → connected_count (signal_map_at s n) = k.
Proof.
  unfold count_of, signal_map_at. destruct (signal_map s !! n); simpl; congruence.
Qed.

Lemma increase_all_int_agrees (names : list string) (s : ipc_rules_t) :
  NoDup names →
  (∀ m, m ∈ names → ∃ k, count_of s m = Some k ∧ INT_MIN ≤ k < INT_MAX) →
  foldl signal_increase_int s names = foldl signal_increase s names.
Proof.
  revert s. induction names as [|a names IH]; intros s Hnd Hfit; simpl; [done|].
  apply NoDup_cons in Hnd as [Ha Hnd].
  destruct (Hfit a) as (k & Hk & Hrange); [left|].
  assert (signal_increase_int s a = signal_increase s a) as ->.
  { unfold signal_increase_int, signal_increase.
    rewrite increase_count_int_agrees; [done|].
    by rewrite (count_of_signal_map_at _ _ _ Hk). }
  apply IH; [done|]. intros m Hm.
  rewrite count_of_signal_increase, decide_False by (by intros ->).
  apply Hfit. by right.
Qed.

Lemma decrease_all_int_agrees (names : list string) (s : ipc_rules_t) :
  NoDup names →
  (∀ m, m ∈ names → ∃ k, count_of s m = Some k ∧ INT_MIN < k ≤ INT_MAX) →
  foldl signal_decrease_int s names = foldl signal_decrease s names.
Proof.
  revert s. induction names as [|a names IH]; intros s Hnd Hfit; simpl; [done|].
  apply NoDup_cons in Hnd as [Ha Hnd].
  destruct (Hfit a) as (k & Hk & Hrange); [left|].
  assert (signal_decrease_int s a = signal_decrease s a) as ->.
  { unfold signal_decrease_int, signal_decrease.
    rewrite decrease_count_int_agrees; [done|].
    by rewrite (count_of_signal_map_at _ _ _ Hk). }
  apply IH; [done|]. intros m Hm.
  rewrite count_of_signal_decrease, decide_False by (by intros ->).
  apply Hfit. by right.
Qed.

(** Along a run within the range of [int], the loop of a watch over the
    names it counts does on 32-bit counts what it does in the model. *)
Lemma watch_within_int (c : client_interface_t) (events : gset string) (s : ipc_rules_t) :
  reachable_int s →
  events ⊆ dom signal_map_init →
  counts_in_int (subscribe c events s) →
  foldl signal_increase_int s (elements events) =
  foldl signal_increase s (elements events).
Proof.
  intros Hrun Hev Hfit.
  pose proof (reachable_consistent s (reachable_int_reachable s Hrun)) as Hcons.
  apply increase_all_int_agrees; [apply NoDup_elements|].
  intros m Hm%elem_of_elements.
  destruct (catalog_complete m (Hev m Hm)) as [conn ->].
  destruct (attachments_consistent s conn core_provider Hcons) as (k & Hk & Hk0 & _).
  exists k. split; [done|]. split; [unfold INT_MIN; lia|].
  destruct (subscribe_effect c events s Hcons Hev) as (_ & Hcount & _).
  specialize (Hcount (catalog_name conn)). rewrite decide_True, Hk in Hcount by done.
  pose proof (counts_in_int_count_of _ _ _ Hfit Hcount). lia.
Qed.

(** And so does the loop of a disconnect over the names it releases. *)
Lemma disconnect_within_int (c : client_interface_t) (s : ipc_rules_t) :
  reachable_int s →
  foldl signal_decrease_int s (elements (default ∅ (clients s !! c))) =
  foldl signal_decrease s (elements (default ∅ (clients s !! c))).
Proof.
  intros Hrun.
  pose proof (reachable_consistent s (reachable_int_reachable s Hrun)) as Hcons.
  apply decrease_all_int_agrees; [apply NoDup_elements|].
  intros m Hm%elem_of_elements.
  destruct (clients s !! c) as [events|] eqn:Hc; simpl in Hm; [|by apply not_elem_of_empty in Hm].
  assert (m ∈ dom signal_map_init) as Hdom by (destruct Hcons as [_ Hsub]; by eapply Hsub).
  destruct (catalog_complete m Hdom) as [conn ->].
  destruct (attachments_consistent s conn core_provider Hcons) as (k & Hk & _ & Hh & _).
  pose proof (holders_positive _ _ _ _ Hc Hm).
  exists k. split; [done|].
  pose proof (counts_in_int_count_of _ _ _ (reachable_int_counts s Hrun) Hk).
  unfold INT_MIN in *. lia.
Qed.

(** X2 (watch, then disconnect): in a state reached by a run whose counts
    stay within the range of [int], a client that is not registered, calls
    events/watch with any request that keeps the counts in range and then
    disconnects leaves the plugin as it found it: the same [signal_map] (so
    every count is back), the same clients, outputs and outbox, and the same
    attachments (as a collection; only the order in which they were made may
    differ); the run so extended is still within the range of [int]. *)
Theorem X2_watch_then_disconnect_restores (data : json) (c : client_interface_t)
    (s : ipc_rules_t) :
  reachable_int s →
  counts_in_int (on_client_watch data c s).2 →
  clients s !! c = None →
  let s2 := on_client_disconnected c (on_client_watch data c s).2 in
  signal_map s2 = signal_map s ∧
  clients s2 = clients s ∧
  get_outputs (core s2) = get_outputs (core s) ∧
  outbox (core s2) = outbox (core s) ∧
  connections (core s2) ≡ₚ connections (core s) ∧
  reachable_int s2.
Proof.
  intros Hrun Hfit Hc s2. pose proof (reachable_int_reachable s Hrun) as Hr.
  pose proof (reachable_consistent s Hr) as Hcons.
  set (s1 := (on_client_watch data c s).2) in *.
  assert (consistent s1) as Hcons1 by (by apply consistent_watch).
  assert (consistent s2) as Hcons2 by (by apply consistent_disconnect).
  destruct (disconnect_effect s1 c Hcons1) as (_ & _ & Hothers & Hcount & Hb & Ho).
  fold s2 in Hothers, Hcount, Hb, Ho.
  assert (clients s2 = delete c (clients s1)) as Hcl2.
  { apply map_eq. intros c'. destruct (decide (c' = c)) as [->|Hne].
    - rewrite lookup_delete_eq. by destruct (disconnect_effect s1 c Hcons1) as (Hnone & _).
    - rewrite lookup_delete_ne by done. by apply Hothers. }
  assert (clients s2 = clients s ∧ (∀ n, count_of s2 n = count_of s n) ∧
          get_outputs (core s2) = get_outputs (core s) ∧
          outbox (core s2) = outbox (core s)) as (Hcl & Hn & Hos & Hbs).
  { destruct (watch_effect data c s Hcons) as [[_ Hsame]|(events & _ & Hev & Hok)].
    - fold s1 in Hsame. rewrite Hsame in *. rewrite Hc in Hcount. simpl in Hcount.
      split_and!; [by rewrite Hcl2, delete_id|done|done|done].
    - assert (s1 = subscribe c events s) as Hs1 by (unfold s1; by rewrite Hok).
      destruct (subscribe_effect c events s Hcons Hev) as (Hcl1 & Hcount1 & Hb1 & Ho1).
      rewrite <- Hs1 in Hcl1, Hcount1, Hb1, Ho1.
      split_and!; [|intros n|congruence|congruence].
      + by rewrite Hcl2, Hcl1, delete_insert_id.
      + rewrite Hcount, Hcl1, lookup_insert_eq, Hcount1. simpl.
        destruct (decide (n ∈ events)); [|done].
        destruct (count_of s n) as [k|]; simpl; [f_equal; lia|done]. }
  destruct (same_counts_same_attachments s2 s Hcons2 Hcons Hn Hos) as [Hsm Hperm].
  split_and!; [done|done|done|done|done|].
  eapply rtc_r; [eapply rtc_r; [exact Hrun|]|].
  - split; [apply step_watch|exact Hfit].
  - split; [apply step_disconnect|].
    eapply counts_in_int_same_map; [exact Hsm|]. by apply reachable_int_counts.
Qed.

(** X3 (a held name is attached): in every state reached by a run whose
    counts stay within the range of [int], if some registered client's stored
    set contains a catalog name, the connection of that name is attached
    exactly once to each of its scopes (the core, or every output there is),
    and to nothing else. *)
Theorem X3_held_name_is_attached (s : ipc_rules_t) (c : client_interface_t)
    (events : gset string) (conn : connection_t) (p : provider_t) :
  reachable_int s →
  clients s !! c = Some events →
  catalog_name conn ∈ events →
  (scope_of conn p (get_outputs (core s)) → attachments p conn (core s) = 1%nat) ∧
  (¬ scope_of conn p (get_outputs (core s)) → attachments p conn (core s) = 0%nat).
Proof.
  intros Hr%reachable_int_reachable Hc Hin.
  destruct (attachments_consistent s conn p (reachable_consistent s Hr))
    as (k & _ & _ & Hh & Hm & ->).
  pose proof (holders_positive _ _ _ _ Hc Hin).
  split; intros Hsc; case_decide as Hd; try done; exfalso.
  - apply Hd, Hm. split; [lia|done].
  - apply Hm in Hd as [_ ?]. done.
Qed.

(** X4 (attachments follow counts): in every state reached by a run whose
    counts stay within the range of [int], and for every catalog entry, the
    count is not negative, not above [INT_MAX] and not below the number of
    registered clients whose stored set holds the name; the connection is
    attached to a provider at most once, and it is attached exactly when the
    count is positive and the provider is one of its scopes (the core for a
    core entry, an existing output for a per-output entry); every stored set
    holds catalog names only. *)
Theorem X4_attachments_follow_counts (s : ipc_rules_t) (conn : connection_t)
    (p : provider_t) :
  reachable_int s →
  (∃ k, count_of s (catalog_name conn) = Some k ∧
        0 ≤ holders (catalog_name conn) (clients s) ≤ k ∧
        k ≤ INT_MAX ∧
        (attachments p conn (core s) ≤ 1)%nat ∧
        (attachments p conn (core s) = 1%nat ↔
         0 < k ∧ scope_of conn p (get_outputs (core s)))) ∧
  NoDup (get_outputs (core s)) ∧
  (∀ c events, clients s !! c = Some events → events ⊆ dom signal_map_init).
Proof.
  intros Hrun. pose proof (reachable_int_reachable s Hrun) as Hr.
  pose proof (reachable_consistent s Hr) as Hcons.
  destruct (attachments_consistent s conn p Hcons) as (k & Hk & _ & Hh & Hm & Hatt).
  pose proof (holders_nonneg (catalog_name conn) (clients s)).
  pose proof (counts_in_int_count_of _ _ _ (reachable_int_counts s Hrun) Hk) as Hrange.
  split_and!; [|apply Hcons|apply Hcons].
  exists k. rewrite Hatt. split_and!; [done|lia|lia|lia|by case_decide; lia|].
  rewrite <- Hm. case_decide; [done|]. split; [done|tauto].
Qed.

Lemma increase_all_appends (names : list string) s :
  shaped (signal_map s) →
  (∀ n, n ∈ names → n ∈ dom signal_map_init) →
  ∃ added, connections (core (foldl signal_increase s names)) =
           connections (core s) ++ added.
Proof.
  revert s. induction names as [|n names IH]; intros s Hs Hin; simpl.
  - exists []. by rewrite app_nil_r.
  - destruct (catalog_complete n) as [conn ->]; [apply Hin; left|].
    destruct (Hs conn) as [k Hk].
    destruct (signal_increase_registered s conn k Hk) as (Hsm & _ & _ & _ & Hc).
    destruct (IH (signal_increase s (catalog_name conn))) as [added Hadded].
    + rewrite Hsm. by apply shaped_insert.
    + intros m Hm. apply Hin. by right.
    + rewrite Hadded, Hc. eexists. by rewrite <- app_assoc.
Qed.

(** X19 (a watch releases nothing): in a state reached by a run whose
    counts stay within the range of [int], whatever the client had stored
    before and whatever the request, as long as it keeps the counts in range,
    events/watch lowers no count and removes no attachment: every count is
    afterwards at least what it was (and at most [INT_MAX]), and the
    attachments are the earlier ones followed by the new ones. *)
Theorem X19_watch_never_releases (data : json) (c : client_interface_t) (s : ipc_rules_t) :
  reachable_int s →
  counts_in_int (on_client_watch data c s).2 →
  let r := on_client_watch data c s in
  (∀ n k, count_of s n = Some k → ∃ k', count_of r.2 n = Some k' ∧ k ≤ k' ≤ INT_MAX) ∧
  (∃ added, connections (core r.2) = connections (core s) ++ added).
Proof.
  intros Hrun Hfit r. pose proof (reachable_int_reachable s Hrun) as Hr.
  pose proof (reachable_consistent s Hr) as Hcons.
  assert (∀ n k k', count_of s n = Some k → count_of r.2 n = Some k' → k ≤ k' →
                    ∃ k', count_of r.2 n = Some k' ∧ k ≤ k' ≤ INT_MAX) as Hup.
  { intros n k k' _ Hk' Hle. exists k'. split; [done|].
    pose proof (counts_in_int_count_of _ _ _ Hfit Hk'). lia. }
  destruct (watch_effect data c s Hcons) as [[_ Hsame]|(events & _ & Hev & Hok)].
  - split.
    + intros n k Hk. apply (Hup n k k Hk); [|lia]. unfold r. by rewrite Hsame.
    + exists []. unfold r. by rewrite Hsame, app_nil_r.
  - split; unfold r in *; rewrite Hok in *; cbn [snd] in *.
    + intros n k Hk.
      destruct (subscribe_effect c events s Hcons Hev) as (_ & Hcount & _).
      destruct (decide (n ∈ events)) as [Hn|Hn].
      * apply (Hup n k (k + 1) Hk); [|lia]. rewrite Hcount, Hk, decide_True by done. done.
      * apply (Hup n k k Hk); [|lia]. rewrite Hcount, Hk, decide_False by done. done.
    + unfold subscribe. cbn [core]. apply increase_all_appends.
      * destruct Hcons as [Ht _]. by eapply tracked_shaped.
      * intros n Hn%elem_of_elements. by apply Hev.
Qed.

Lemma collect_events_names (sm : gmap string signal_registration_handler)
    (names : list string) (acc : gset string) :
  collect_events sm (JString <$> names) acc = Some (acc ∪ (list_to_set names ∩ dom sm)).
Proof.
  revert acc. induction names as [|n names IH]; intros acc; simpl.
  - f_equal. clear. set_solver.
  - rewrite IH. f_equal. destruct (sm !! n) as [h|] eqn:Hn.
    + assert (n ∈ dom sm) as Hin by (apply elem_of_dom; eauto).
      clear -Hin. set_solver.
    + apply not_elem_of_dom in Hn. clear -Hn. set_solver.
Qed.

Lemma watch_names (data : json) (c : client_interface_t) (s : ipc_rules_t)
    (names : list string) :
  json_get data EVENTS = Some (JArray (JString <$> names)) →
  on_client_watch data c s =
  (json_ok, subscribe c (list_to_set names ∩ dom (signal_map s)) s).
Proof.
  intros Hget. rewrite (watch_array _ _ _ _ Hget), collect_events_names.
  by rewrite (left_id_L ∅ (∪)).
Qed.

(** X5 (a watch with a list of names): in a reachable state, a request whose
    [events] is a list of strings is answered ok; the set stored for the
    client is the set of the listed names that are in the catalog (unknown
    names and repetitions are dropped), exactly those names are counted once
    more each, the other clients keep their sets, nothing is sent and no
    output is touched. *)
Theorem X5_watch_stores_known_names (data : json) (c : client_interface_t)
    (s : ipc_rules_t) (names : list string) :
  reachable s →
  json_get data EVENTS = Some (JArray (JString <$> names)) →
  let r := on_client_watch data c s in
  r.1 = json_ok ∧
  clients r.2 !! c = Some (list_to_set names ∩ dom signal_map_init) ∧
  (∀ c', c' ≠ c → clients r.2 !! c' = clients s !! c') ∧
  (∀ n, count_of r.2 n =
        if decide (n ∈ names ∧ n ∈ dom signal_map_init)
        then (λ k, k + 1) <$> count_of s n else count_of s n) ∧
  outbox (core r.2) = outbox (core s) ∧
  get_outputs (core r.2) = get_outputs (core s).
Proof.
  intros Hr Hget r. pose proof (reachable_consistent s Hr) as Hcons.
  assert (dom (signal_map s) = dom signal_map_init) as Hdom by apply Hcons.
  unfold r. rewrite (watch_names _ _ _ _ Hget), Hdom. cbn [fst snd].
  destruct (subscribe_effect c (list_to_set names ∩ dom signal_map_init) s Hcons)
    as (Hcl & Hcount & Hb & Ho).
  { apply intersection_subseteq_r. }
  split_and!; [done| | | |done|done].
  - by rewrite Hcl, lookup_insert_eq.
  - intros c' Hne. by rewrite Hcl, lookup_insert_ne.
  - intros n. rewrite Hcount.
    destruct (decide (n ∈ names ∧ n ∈ dom signal_map_init)) as [[H1 H2]|Hno].
    + rewrite decide_True; [done|]. apply elem_of_intersection.
      split; [by apply elem_of_list_to_set|done].
    + rewrite decide_False; [done|]. intros [H1%elem_of_list_to_set H2]%elem_of_intersection.
      by apply Hno.
Qed.

(** X6 (a watch with only unknown names): in a reachable state, a request
    whose [events] lists only names that are not in the catalog is answered
    ok, stores the empty set and changes neither [signal_map] nor the host;
    as the empty set stands for every event, the client is from then on a
    recipient of every event name. *)
Theorem X6_unknown_names_subscribe_to_all (data : json) (c : client_interface_t)
    (s : ipc_rules_t) (names : list string) :
  reachable s →
  json_get data EVENTS = Some (JArray (JString <$> names)) →
  (∀ n, n ∈ names → n ∉ dom signal_map_init) →
  let r := on_client_watch data c s in
  r.1 = json_ok ∧
  clients r.2 !! c = Some ∅ ∧
  signal_map r.2 = signal_map s ∧ core r.2 = core s ∧
  (∀ name, c ∈ recipients name r.2).
Proof.
  intros Hr Hget Hunknown r. pose proof (reachable_consistent s Hr) as Hcons.
  assert (dom (signal_map s) = dom signal_map_init) as Hdom by apply Hcons.
  assert (list_to_set names ∩ dom (signal_map s) = (∅ : gset string)) as Hempty.
  { rewrite Hdom. apply set_eq. intros n. split; [|by intros ?%not_elem_of_empty].
    intros [H1%elem_of_list_to_set H2]%elem_of_intersection. by apply Hunknown in H1. }
  unfold r. rewrite (watch_names _ _ _ _ Hget), Hempty, subscribe_empty. cbn [fst snd].
  cbn [signal_map clients core]. split_and!; try done.
  - by rewrite lookup_insert_eq.
  - intros name. apply elem_of_recipients. exists ∅. cbn [clients].
    rewrite lookup_insert_eq. auto.
Qed.

(** ** Publishing *)

Lemma recipients_outside_catalog (s : ipc_rules_t) (name : string) (c : client_interface_t) :
  consistent s → name ∉ dom signal_map_init →
  (c ∈ recipients name s ↔ clients s !! c = Some ∅).
Proof.
  intros [_ Hsub] Hname. rewrite elem_of_recipients. split.
  - intros (ev & Hev & [->|Hin]); [done|]. exfalso. apply Hname. by eapply Hsub.
  - intros Hev. exists ∅. auto.
Qed.

Lemma output_names_not_in_catalog :
  (("output-added" : string) ∉ dom signal_map_init) ∧
  (("output-removed" : string) ∉ dom signal_map_init).
Proof. split; intros [conn H]%catalog_complete; by destruct conn. Qed.

Lemma handle_new_output_outbox (wo : output_t) (output_json : json) (s : ipc_rules_t) :
  consistent s →
  outbox (core (handle_new_output wo output_json s)) =
  outbox (core s) ++
  ((λ c, (c, event_json "output-added" [("output"%string, output_json)]))
     <$> recipients "output-added" s).
Proof.
  intros [Ht _]. unfold handle_new_output. rewrite send_event_outbox.
  destruct (new_output_attachments wo (map_to_list (signal_map s)) (core s))
    as (_ & Hb & _).
  { apply NoDup_fst_map_to_list. }
  { intros n h Hin%elem_of_map_to_list.
    destruct (catalog_complete n) as [conn ->].
    { replace (dom signal_map_init) with (dom (signal_map s)) by apply Ht.
      apply elem_of_dom. eauto. }
    destruct (tracked_shaped _ _ _ Ht conn) as [k Hk]. exists conn, k.
    split; [done|congruence]. }
  cbn [core outbox]. by rewrite Hb.
Qed.

(** X7 (the output events): in a reachable state, the "output-added"
    message of [handle_new_output] and the "output-removed" message of
    [handle_output_removed] go exactly to the clients whose stored set is
    empty, once each: neither name is in the catalog, so no stored set can
    name it.  [handle_output_removed] changes nothing but the outbox; in
    particular it detaches nothing. *)
Theorem X7_output_events_reach_empty_sets (s : ipc_rules_t) (wo : output_t)
    (output_json : json) :
  reachable s →
  (∀ c, c ∈ recipients "output-added" s ↔ clients s !! c = Some ∅) ∧
  (∀ c, c ∈ recipients "output-removed" s ↔ clients s !! c = Some ∅) ∧
  NoDup (recipients "output-added" s) ∧ NoDup (recipients "output-removed" s) ∧
  outbox (core (handle_new_output wo output_json s)) =
    outbox (core s) ++
    ((λ c, (c, event_json "output-added" [("output"%string, output_json)]))
       <$> recipients "output-added" s) ∧
  (let s' := handle_output_removed wo output_json s in
   outbox (core s') =
     outbox (core s) ++
     ((λ c, (c, event_json "output-removed" [("output"%string, output_json)]))
        <$> recipients "output-removed" s) ∧
   signal_map s' = signal_map s ∧ clients s' = clients s ∧
   get_outputs (core s') = get_outputs (core s) ∧
   connections (core s') = connections (core s)).
Proof.
  intros Hr. pose proof (reachable_consistent s Hr) as Hcons.
  destruct output_names_not_in_catalog as [Ha Hd].
  cbv zeta. split_and!.
  - intros c. by apply recipients_outside_catalog.
  - intros c. by apply recipients_outside_catalog.
  - apply NoDup_recipients.
  - apply NoDup_recipients.
  - by apply handle_new_output_outbox.
  - apply send_event_outbox.
  - done.
  - done.
  - apply send_event_outputs.
  - apply send_event_connections.
Qed.

Lemma emit_once (p : provider_t) (conn : connection_t) (fields : list (string * json))
    (s : ipc_rules_t) :
  attachments p conn (core s) = 1%nat → emit p conn fields s = callback conn fields s.
Proof. unfold emit. by intros ->. Qed.

Lemma emit_none (p : provider_t) (conn : connection_t) (fields : list (string * json))
    (s : ipc_rules_t) :
  attachments p conn (core s) = 0%nat → emit p conn fields s = s.
Proof. unfold emit. by intros ->. Qed.

(** X8 (one message per event): in a state reached by a run whose counts
    stay within the range of [int], emitting the signal of a connection on a
    provider sends the event once to every recipient of its published name
    when the connection's count is positive and the provider is one of its
    scopes, and sends nothing otherwise; [signal_map], the clients and the
    attachments are left as they were. *)
Theorem X8_emit_sends_once (s : ipc_rules_t) (conn : connection_t) (p : provider_t)
    (fields : list (string * json)) (k : Z) :
  reachable_int s →
  count_of s (catalog_name conn) = Some k →
  let s' := emit p conn fields s in
  signal_map s' = signal_map s ∧ clients s' = clients s ∧
  connections (core s') = connections (core s) ∧
  (0 < k ∧ scope_of conn p (get_outputs (core s)) →
   outbox (core s') =
     outbox (core s) ++
     ((λ c, (c, event_json (published_name conn) fields))
        <$> recipients (published_name conn) s)) ∧
  (¬ (0 < k ∧ scope_of conn p (get_outputs (core s))) →
   outbox (core s') = outbox (core s)).
Proof.
  intros Hr%reachable_int_reachable Hk s'.
  destruct (emit_frame p conn fields s) as (Hsm & Hcl & _ & Hcn).
  destruct (attachments_consistent s conn p (reachable_consistent s Hr))
    as (k' & Hk' & _ & _ & Hm & Hatt).
  assert (k' = k) as -> by congruence.
  split_and!; [done|done|done| |].
  - intros Hlive. rewrite decide_True in Hatt by (by apply Hm).
    unfold s'. rewrite (emit_once _ _ _ _ Hatt). unfold callback. apply send_event_outbox.
  - intros Hdead. rewrite decide_False in Hatt by (by rewrite Hm).
    unfold s'. by rewrite (emit_none _ _ _ _ Hatt).
Qed.

(** ** input/configure-device and input/list-devices *)

Lemma configure_first_found (data : json) (pre post : list input_device_t)
    (d : input_device_t) :
  Forall (λ x, intptr_eq_json (get_wlr_handle x) (at_key data "id") = false) pre →
  intptr_eq_json (get_wlr_handle d) (at_key data "id") = true →
  configure_first data (pre ++ d :: post) =
  Some (pre ++ set_enabled (json_bool (at_key data "enabled")) d :: post).
Proof.
  intros Hpre Hd. induction Hpre as [|x pre Hx _ IH]; simpl.
  - by rewrite Hd.
  - by rewrite Hx, IH.
Qed.

Lemma configure_first_inv (data : json) (devices devices' : list input_device_t) :
  configure_first data devices = Some devices' →
  ∃ pre d post,
    devices = pre ++ d :: post ∧
    devices' = pre ++ set_enabled (json_bool (at_key data "enabled")) d :: post ∧
    intptr_eq_json (get_wlr_handle d) (at_key data "id") = true ∧
    Forall (λ x, intptr_eq_json (get_wlr_handle x) (at_key data "id") = false) pre.
Proof.
  revert devices'. induction devices as [|x devices IH]; intros devices' H; simpl in H.
  - done.
  - destruct (intptr_eq_json (get_wlr_handle x) (at_key data "id")) eqn:Hx.
    + injection H as <-. exists [], x, devices. by split_and!.
    + destruct (configure_first data devices) as [rest|] eqn:Hrest; [|done].
      simpl in H. injection H as <-.
      destruct (IH rest eq_refl) as (pre & d & post & -> & -> & Hd & Hpre).
      exists (x :: pre), d, post. split_and!; try done. by constructor.
Qed.

Lemma unsigned_id_matches (data : json) (id handle : Z) :
  json_get data "id" = Some (JUnsigned id) → 0 ≤ id < 2 ^ 63 →
  intptr_eq_json handle (at_key data "id") = bool_decide (handle = id).
Proof.
  intros Hid Hr. unfold at_key. rewrite Hid. simpl. by rewrite to_int64_small.
Qed.

(** X9 (configuring a known device): for a request with an unsigned [id]
    (an address, below 2^63) and a boolean [enabled], when some device has
    that id the answer is ok, the first device with that id gets its enabled
    flag set to the requested value, and every other device, before and after
    it, is left as it was. *)
Theorem X9_configure_known_device (data : json) (pre post : list input_device_t)
    (d : input_device_t) (id : Z) (enabled : bool) :
  json_get data "id" = Some (JUnsigned id) →
  json_get data "enabled" = Some (JBool enabled) →
  0 ≤ id < 2 ^ 63 →
  get_wlr_handle d = id →
  Forall (λ x, get_wlr_handle x ≠ id) pre →
  configure_input_device data (pre ++ d :: post) =
  (json_ok, pre ++ set_enabled enabled d :: post).
Proof.
  intros Hid Hen Hr Hd Hpre.
  unfold configure_input_device, WFJSON_EXPECT_FIELD. rewrite Hid, Hen. simpl.
  rewrite configure_first_found.
  - unfold at_key. by rewrite Hen.
  - eapply Forall_impl; [exact Hpre|]. intros x Hx. simpl in Hx.
    rewrite (unsigned_id_matches _ _ _ Hid Hr). by apply bool_decide_eq_false.
  - rewrite (unsigned_id_matches _ _ _ Hid Hr). by apply bool_decide_eq_true.
Qed.

(** X10 (what configure-device never does): whatever the request, the
    handler neither adds, removes nor reorders devices (the handles are the
    same list afterwards); its answer is either ok or an error; an error
    leaves every device as it was; and an ok answer has changed one thing
    only, the enabled flag of the first device whose handle equals the
    requested id. *)
Theorem X10_configure_device_changes_one_flag (data : json)
    (devices : list input_device_t) :
  let r := configure_input_device data devices in
  get_wlr_handle <$> r.2 = get_wlr_handle <$> devices ∧
  (r.1 = json_ok ∨ is_error r.1 = true) ∧
  (is_error r.1 = true → r.2 = devices) ∧
  (r.1 = json_ok →
   ∃ pre d post,
     devices = pre ++ d :: post ∧
     r.2 = pre ++ set_enabled (json_bool (at_key data "enabled")) d :: post ∧
     intptr_eq_json (get_wlr_handle d) (at_key data "id") = true ∧
     Forall (λ x, intptr_eq_json (get_wlr_handle x) (at_key data "id") = false) pre).
Proof.
  unfold configure_input_device.
  destruct (WFJSON_EXPECT_FIELD data "id" _ _) as [e0|] eqn:H0.
  { apply expect_field_error in H0. simpl. split_and!; [done|by right|done|].
    intros ->. discriminate H0. }
  destruct (WFJSON_EXPECT_FIELD data "enabled" _ _) as [e1|] eqn:H1.
  { apply expect_field_error in H1. simpl. split_and!; [done|by right|done|].
    intros ->. discriminate H1. }
  destruct (configure_first data devices) as [devices'|] eqn:Hf; simpl.
  - destruct (configure_first_inv _ _ _ Hf) as (pre & d & post & -> & -> & Hd & Hpre).
    split_and!; [|by left|done|].
    + by rewrite !fmap_app, !fmap_cons.
    + intros _. by exists pre, d, post.
  - split_and!; [done|by right|done|done].
Qed.

Lemma device_json_set_enabled (deref : Z → wlr_input_device)
    (nonull : option string → string) (enabled : bool) (d : input_device_t) :
  device_json deref nonull (set_enabled enabled d) =
  json_set (device_json deref nonull d) "enabled" (JBool enabled).
Proof. reflexivity. Qed.

Lemma device_json_fields (deref : Z → wlr_input_device)
    (nonull : option string → string) (d : input_device_t) :
  json_get (device_json deref nonull d) "id" = Some (JInt (get_wlr_handle d)) ∧
  json_get (device_json deref nonull d) "enabled" = Some (JBool (is_enabled d)) ∧
  json_get (device_json deref nonull d) "type" =
    Some (JString (wlr_input_device_type_to_string (wlr_type (deref (get_wlr_handle d))))).
Proof. by split_and!. Qed.

(** X11 (listing after configuring): list-devices answers with one object
    per device, in order, whose [id] is the handle and whose [enabled] is
    the flag of the device.  After a configure-device that found its device
    (as in X9), the listing is the listing from before with the [enabled]
    field of that one device set to the requested value. *)
Theorem X11_listing_after_configure (deref : Z → wlr_input_device)
    (nonull : option string → string) (data : json)
    (pre post : list input_device_t) (d : input_device_t) (id : Z) (enabled : bool) :
  json_get data "id" = Some (JUnsigned id) →
  json_get data "enabled" = Some (JBool enabled) →
  0 ≤ id < 2 ^ 63 →
  get_wlr_handle d = id →
  Forall (λ x, get_wlr_handle x ≠ id) pre →
  let listing := list_input_devices deref nonull in
  let entry := device_json deref nonull in
  listing (pre ++ d :: post) = JArray ((entry <$> pre) ++ entry d :: (entry <$> post)) ∧
  json_get (entry d) "id" = Some (JInt id) ∧
  json_get (entry d) "enabled" = Some (JBool (is_enabled d)) ∧
  listing (configure_input_device data (pre ++ d :: post)).2 =
    JArray ((entry <$> pre) ++ json_set (entry d) "enabled" (JBool enabled)
                            :: (entry <$> post)) ∧
  json_get (json_set (entry d) "enabled" (JBool enabled)) "id" = Some (JInt id) ∧
  json_get (json_set (entry d) "enabled" (JBool enabled)) "enabled" = Some (JBool enabled).
Proof.
  intros Hid Hen Hr Hd Hpre listing entry.
  assert (configure_first data (pre ++ d :: post) =
          Some (pre ++ set_enabled enabled d :: post)) as Hf.
  { rewrite configure_first_found.
    - unfold at_key. by rewrite Hen.
    - eapply Forall_impl; [exact Hpre|]. intros x Hx. simpl in Hx.
      rewrite (unsigned_id_matches _ _ _ Hid Hr). by apply bool_decide_eq_false.
    - rewrite (unsigned_id_matches _ _ _ Hid Hr). by apply bool_decide_eq_true. }
  assert ((configure_input_device data (pre ++ d :: post)).2 =
          pre ++ set_enabled enabled d :: post) as ->.
  { unfold configure_input_device, WFJSON_EXPECT_FIELD. by rewrite Hid, Hen, Hf. }
  unfold listing, list_input_devices. rewrite !fmap_app, !fmap_cons.
  rewrite device_json_set_enabled. subst id.
  split_and!; reflexivity.
Qed.

(** ** The printed names *)


(** X13 (type and role of a view agree): the [type] the plugin reports for a
    view is "toplevel" exactly for the toplevel role, and "x-or" or
    "unmanaged" exactly for the unmanaged role; "x-or" needs a build with
    Xwayland and a view whose surface belongs to it; any other role is
    sorted by its layer into "background", "panel", "overlay" or
    "unknown". *)
Theorem X13_view_type_agrees_with_role (WF_HAS_XWAYLAND : bool) (role : view_role_t)
    (xwayland_surface : bool) (view_layer : option layer) :
  let type := get_view_type WF_HAS_XWAYLAND role xwayland_surface view_layer in
  (type = "toplevel"%string ↔ role = VIEW_ROLE_TOPLEVEL) ∧
  (type = "x-or"%string ∨ type = "unmanaged"%string ↔ role = VIEW_ROLE_UNMANAGED) ∧
  (type = "x-or"%string ↔
   role = VIEW_ROLE_UNMANAGED ∧ WF_HAS_XWAYLAND = true ∧ xwayland_surface = true) ∧
  (role ≠ VIEW_ROLE_TOPLEVEL → role ≠ VIEW_ROLE_UNMANAGED →
   type = (if bool_decide (view_layer = Some BACKGROUND ∨ view_layer = Some BOTTOM)
           then "background"
           else if bool_decide (view_layer = Some TOP) then "panel"
           else if bool_decide (view_layer = Some OVERLAY) then "overlay"
           else "unknown")%string).
Proof.
  destruct role, WF_HAS_XWAYLAND, xwayland_surface;
    destruct view_layer as [[]|]; simpl;
    (split_and!; [split; [intros H; try done; discriminate H | intros H; try done; discriminate H]
                 |split; [intros [H|H]; try done; discriminate H
                         |intros H; try discriminate H; auto]
                 |split; [intros H; try done; discriminate H
                         |intros (H1 & H2 & H3); try done; try discriminate H1;
                          try discriminate H2; discriminate H3]
                 |intros H1 H2; try done; reflexivity]).
Qed.

(** ** Handlers that look a view up by its id *)

Lemma json_ok_not_error : is_error json_ok = false.
Proof. reflexivity. Qed.

Section view_handlers_properties.

Context {desktop_t view_t toplevel_t : Type}.
Variable find_view_by_id : json → desktop_t → option view_t.
Variable toplevel_cast : view_t → option toplevel_t.
Variable view_to_json : view_t → desktop_t → json.
Variable focus_request : toplevel_t → desktop_t → desktop_t.
Variable close : view_t → desktop_t → desktop_t.

(** X14 (focus-view): the focus request is made exactly when the answer is
    ok, and then for the toplevel of the view the id names; an error answer
    leaves the desktop as it was; a view that is found but is not a toplevel
    is answered "view is not toplevel", an id that names no view "no such
    view". *)
Theorem X14_focus_view_requests_on_ok (data : json) (d : desktop_t) :
  let r := focus_view find_view_by_id toplevel_cast focus_request data d in
  (is_error r.1 = true → r.2 = d) ∧
  (r.1 = json_ok ∨ is_error r.1 = true) ∧
  (r.1 = json_ok →
   ∃ view toplevel,
     find_view_by_id (at_key data "id") d = Some view ∧
     toplevel_cast view = Some toplevel ∧
     r.2 = focus_request toplevel d) ∧
  (∀ v, json_get data "id" = Some v → is_number_integer v = true →
        match find_view_by_id v d with
        | None => r = (json_error "no such view", d)
        | Some view =>
            match toplevel_cast view with
            | None => r = (json_error "view is not toplevel", d)
            | Some toplevel => r = (json_ok, focus_request toplevel d)
            end
        end).
Proof.
  unfold focus_view, WFJSON_EXPECT_FIELD, at_key.
  destruct (json_get data "id") as [v|] eqn:Hid; simpl.
  - destruct (is_number_integer v) eqn:Hint; simpl.
    + destruct (find_view_by_id v d) as [view|] eqn:Hview; simpl.
      * destruct (toplevel_cast view) as [toplevel|] eqn:Htop; simpl.
        -- split_and!; [done|by left|intros _; by exists view, toplevel|].
           intros v' [= <-] _. by rewrite Hview, Htop.
        -- split_and!; [done|by right|done|].
           intros v' [= <-] _. by rewrite Hview, Htop.
      * split_and!; [done|by right|done|]. intros v' [= <-] _. by rewrite Hview.
    + split_and!; [done|by right|done|]. intros v' [= <-] Hv. congruence.
  - split_and!; [done|by right|done|done].
Qed.


(** X16 (view-info): for an integer id that names a view, the answer is the
    ok envelope with the description of that view under [info]; for an
    integer id that names no view it is the error "no such view"; without an
    integer id it is an error too. *)
Theorem X16_view_info_answers (data : json) (d : desktop_t) :
  let r := get_view_info find_view_by_id view_to_json data d in
  (∀ v view, json_get data "id" = Some v → is_number_integer v = true →
             find_view_by_id v d = Some view →
             json_get r "result" = Some (JString "ok") ∧
             json_get r "info" = Some (view_to_json view d) ∧
             is_error r = false) ∧
  (∀ v, json_get data "id" = Some v → is_number_integer v = true →
        find_view_by_id v d = None → r = json_error "no such view") ∧
  ((∀ v, json_get data "id" = Some v → is_number_integer v = false) →
   is_error r = true).
Proof.
  unfold get_view_info, WFJSON_EXPECT_FIELD, at_key.
  destruct (json_get data "id") as [v|] eqn:Hid; simpl.
  - destruct (is_number_integer v) eqn:Hint; simpl.
    + split_and!.
      * intros v' view [= <-] _ ->. done.
      * intros v' [= <-] _ ->. done.
      * intros H. specialize (H v eq_refl). congruence.
    + split_and!; [|  |done].
      * intros v' view [= <-] Hv. congruence.
      * intros v' [= <-] Hv. congruence.
  - split_and!; done.
Qed.

End view_handlers_properties.

(** ** init and fini *)

Lemma register_all_failed (l : list (string * Method.t)) :
  foldl (λ r entry, r ≫= register_method entry.1 entry.2) None l = None.
Proof. by induction l. Qed.

Lemma register_all_other (l : list (string * Method.t)) (repo repo' : gmap string Method.t)
    (name : string) :
  foldl (λ r entry, r ≫= register_method entry.1 entry.2) (Some repo) l = Some repo' →
  name ∉ l.*1 → repo' !! name = repo !! name.
Proof.
  revert repo. induction l as [|[k m] l IH]; intros repo Hfold Hname; simpl in *.
  - by injection Hfold as <-.
  - apply not_elem_of_cons in Hname as [Hne Hname].
    unfold register_method in Hfold at 2. destruct (repo !! k) eqn:Hk.
    + by rewrite register_all_failed in Hfold.
    + rewrite (IH _ Hfold Hname). by apply lookup_insert_ne.
Qed.

Lemma register_all_lookup (l : list (string * Method.t)) (repo repo' : gmap string Method.t)
    (name : string) (m : Method.t) :
  foldl (λ r entry, r ≫= register_method entry.1 entry.2) (Some repo) l = Some repo' →
  NoDup l.*1 → (name, m) ∈ l → repo' !! name = Some m.
Proof.
  revert repo. induction l as [|[k m'] l IH]; intros repo Hfold Hnd Hin; simpl in *.
  - by apply elem_of_nil in Hin.
  - apply NoDup_cons in Hnd as [Hk Hnd].
    unfold register_method in Hfold at 2. destruct (repo !! k) eqn:Hrk.
    { by rewrite register_all_failed in Hfold. }
    apply elem_of_cons in Hin as [[= -> ->]|Hin].
    + rewrite (register_all_other _ _ _ _ Hfold Hk). apply lookup_insert_eq.
    + by eapply IH.
Qed.

(** [init] succeeds on a repository that holds none of the names, the names
    being distinct. *)
Lemma register_all_free (l : list (string * Method.t)) (repo : gmap string Method.t) :
  NoDup l.*1 → (∀ name, name ∈ l.*1 → repo !! name = None) →
  is_Some (foldl (λ r entry, r ≫= register_method entry.1 entry.2) (Some repo) l).
Proof.
  revert repo. induction l as [|[k m] l IH]; intros repo Hnd Hfree; simpl in *; [by eexists|].
  apply NoDup_cons in Hnd as [Hk Hnd].
  unfold register_method at 2. rewrite Hfree by left. simpl.
  apply IH; [done|]. intros name Hname.
  rewrite lookup_insert_ne; [apply Hfree; by right|]. by intros ->.
Qed.

(** [init] fails on a repository that holds one of the names. *)
Lemma register_all_taken (l : list (string * Method.t)) (repo : gmap string Method.t)
    (name : string) :
  name ∈ l.*1 → is_Some (repo !! name) →
  foldl (λ r entry, r ≫= register_method entry.1 entry.2) (Some repo) l = None.
Proof.
  revert repo. induction l as [|[k m] l IH]; intros repo Hname Htaken; simpl in *.
  - by apply elem_of_nil in Hname.
  - unfold register_method at 2. destruct (repo !! k) eqn:Hk; simpl.
    { apply register_all_failed. }
    apply elem_of_cons in Hname as [->|Hname].
    + rewrite Hk in Htaken. by destruct Htaken.
    + apply IH; [done|]. destruct (decide (name = k)) as [->|Hne].
      * rewrite lookup_insert_eq. by eexists.
      * by rewrite lookup_insert_ne.
Qed.

Lemma unregister_all_lookup (names : list string) (repo : gmap string Method.t)
    (name : string) :
  foldl (λ r n, unregister_method n r) repo names !! name =
  if decide (name ∈ names) then None else repo !! name.
Proof.
  revert repo. induction names as [|n names IH]; intros repo; simpl; [done|].
  rewrite IH. unfold unregister_method.
  destruct (decide (name = n)) as [->|Hne].
  - rewrite lookup_delete_eq. rewrite (decide_True (P := n ∈ n :: names)) by left.
    by case_decide.
  - rewrite lookup_delete_ne by done. destruct (decide (name ∈ names)).
    + by rewrite decide_True by (by right).
    + rewrite decide_False; [done|]. intros [?|?]%elem_of_cons; done.
Qed.

Lemma fini_covers_init : fini_methods = init_methods.*1.
Proof. reflexivity. Qed.

Lemma init_methods_NoDup : NoDup init_methods.*1.
Proof. apply (bool_decide_unpack _). vm_compute. exact I. Qed.

(** X17 (init and fini): the fifteen names [init] registers are pairwise
    distinct and are the names [fini] unregisters.  On a repository that
    already holds one of them [init] fails, a duplicate registration being
    fatal.  On a repository that holds none of them [init] succeeds: every
    one of the names then resolves to the callback it was registered with,
    every other name resolves as before, and [fini] gives the repository back
    as it was.  On any repository [fini] removes exactly those names, and
    running it twice is running it once. *)
Theorem X17_fini_undoes_init (repo : gmap string Method.t) :
  NoDup init_methods.*1 ∧
  fini_methods = init_methods.*1 ∧
  (∀ name, name ∈ init_methods.*1 → is_Some (repo !! name) → init repo = None) ∧
  ((∀ name, name ∈ init_methods.*1 → repo !! name = None) →
   ∃ repo', init repo = Some repo' ∧
     (∀ name m, (name, m) ∈ init_methods → repo' !! name = Some m) ∧
     (∀ name, name ∉ init_methods.*1 → repo' !! name = repo !! name) ∧
     fini repo' = repo) ∧
  (∀ name, fini repo !! name =
           if decide (name ∈ init_methods.*1) then None else repo !! name) ∧
  fini (fini repo) = fini repo.
Proof.
  pose proof init_methods_NoDup as Hnd.
  assert (∀ r name, fini r !! name =
                    if decide (name ∈ init_methods.*1) then None else r !! name) as Hfini.
  { intros r name. unfold fini. by rewrite unregister_all_lookup, fini_covers_init. }
  split_and!.
  - done.
  - apply fini_covers_init.
  - intros name Hname Htaken. unfold init. by eapply register_all_taken.
  - intros Hfree. destruct (register_all_free init_methods repo Hnd Hfree) as [repo' Hinit].
    exists repo'. split_and!.
    + exact Hinit.
    + intros name m Hin. by eapply register_all_lookup.
    + intros name Hname. by eapply register_all_other.
    + apply map_eq. intros name. rewrite Hfini. case_decide as Hin.
      * by rewrite Hfree.
      * by eapply register_all_other.
  - apply Hfini.
  - apply map_eq. intros name. rewrite !Hfini. by case_decide.
Qed.

(** X17 on the empty repository. *)
Lemma X17_fini_undoes_init_witness :
  (∀ name, name ∈ init_methods.*1 → (∅ : gmap string Method.t) !! name = None) ∧
  ∃ repo', init ∅ = Some repo' ∧ fini repo' = ∅.
Proof.
  assert (∀ name, name ∈ init_methods.*1 → (∅ : gmap string Method.t) !! name = None)
    as Hfree by (intros name _; apply lookup_empty).
  split; [exact Hfree|].
  destruct (proj1 (proj2 (proj2 (proj2 (X17_fini_undoes_init ∅)))) Hfree)
    as (repo' & Hinit & _ & _ & Hfini).
  exists repo'. exact (conj Hinit Hfini).
Defined.

(** ** window-rules/configure-view, the ok answers *)

Lemma contains_false_optional data field is_type type :
  contains data field = false → WFJSON_OPTIONAL_FIELD data field is_type type = None.
Proof.
  unfold contains, WFJSON_OPTIONAL_FIELD. by destruct (json_get data field).
Qed.

Section configure_view_success.

Context {desktop_t view_t toplevel_t geometry_t : Type}.
Variable find_view_by_id : json → desktop_t → option view_t.
Variable toplevel_cast : view_t → option toplevel_t.
Variable find_output_by_id : json → desktop_t → option output_t.
Variable geometry_from_json : json → option geometry_t.
Variable move_view_to_output : toplevel_t → output_t → bool → desktop_t → desktop_t.
Variable set_geometry : toplevel_t → geometry_t → desktop_t → desktop_t.
Variable set_sticky : toplevel_t → json → desktop_t → desktop_t.

Abbreviation configure :=
  (configure_view find_view_by_id toplevel_cast find_output_by_id geometry_from_json
     move_view_to_output set_geometry set_sticky).

(** X18 (when configure-view answers ok, and what it has then done): the
    answer is either ok or an error.  It is ok exactly when the id is an
    integer that names a toplevel view, the optional fields have their types,
    an [output_id] that is given names an output and a [geometry] that is
    given parses.  The desktop is then the one obtained by applying, in this
    order, the move to the output of [output_id] if that field is present
    (reconfiguring the view exactly when no geometry is given), the geometry
    of [geometry] if present, and the flag of [sticky] if present; a request
    that carries only the id of a toplevel view is answered ok and changes
    nothing. *)
Theorem X18_configure_view_ok_applies_in_order (data : json) (d : desktop_t) :
  let r := configure data d in
  (r.1 = json_ok ∨ is_error r.1 = true) ∧
  (r.1 = json_ok ↔
   (∃ v, json_get data "id" = Some v ∧ is_number_integer v = true) ∧
   optional_fields_ok data = true ∧
   ∃ view toplevel,
     find_view_by_id (at_key data "id") d = Some view ∧
     toplevel_cast view = Some toplevel ∧
     (contains data "output_id" = true →
      is_Some (find_output_by_id (at_key data "output_id") d)) ∧
     (contains data "geometry" = true →
      is_Some (geometry_from_json (at_key data "geometry")))) ∧
  (r.1 = json_ok →
   ∃ view toplevel d1 d2,
     find_view_by_id (at_key data "id") d = Some view ∧
     toplevel_cast view = Some toplevel ∧
     (if contains data "output_id"
      then ∃ wo, find_output_by_id (at_key data "output_id") d = Some wo ∧
                 d1 = move_view_to_output toplevel wo (negb (contains data "geometry")) d
      else d1 = d) ∧
     (if contains data "geometry"
      then ∃ g, geometry_from_json (at_key data "geometry") = Some g ∧
                d2 = set_geometry toplevel g d1
      else d2 = d1) ∧
     r.2 = (if contains data "sticky"
            then set_sticky toplevel (at_key data "sticky") d2 else d2)) ∧
  (r.1 = json_ok →
   contains data "output_id" = false → contains data "geometry" = false →
   contains data "sticky" = false → r.2 = d) ∧
  (∀ v view toplevel,
     json_get data "id" = Some v → is_number_integer v = true →
     find_view_by_id (at_key data "id") d = Some view →
     toplevel_cast view = Some toplevel →
     contains data "output_id" = false → contains data "geometry" = false →
     contains data "sticky" = false →
     r = (json_ok, d)).
Proof.
  cbv zeta.
  assert (∀ v view toplevel,
     json_get data "id" = Some v → is_number_integer v = true →
     find_view_by_id (at_key data "id") d = Some view →
     toplevel_cast view = Some toplevel →
     contains data "output_id" = false → contains data "geometry" = false →
     contains data "sticky" = false →
     configure data d = (json_ok, d)) as Honly.
  { intros v view toplevel Hid Hint Hview Htop Hco Hcg Hcs.
    unfold configure_view, WFJSON_EXPECT_FIELD.
    rewrite Hid, Hint, !contains_false_optional, Hview, Htop by done.
    unfold configure_output, configure_geometry, configure_sticky.
    by rewrite Hco, Hcg, Hcs. }
  refine ((λ H, conj (proj1 H) (conj (proj1 (proj2 H)) (conj (proj1 (proj2 (proj2 H)))
            (conj (proj2 (proj2 (proj2 H))) Honly)))) _).
  clear Honly.
  unfold configure_view, optional_fields_ok, WFJSON_EXPECT_FIELD.
  destruct (json_get data "id") as [v|] eqn:Hid; simpl;
    [|split_and!; [by right|split; [intros H; discriminate H|by intros [[? [? _]] _]]
                  |intros H; discriminate H|intros H; discriminate H]].
  destruct (is_number_integer v) eqn:Hint; simpl;
    [|split_and!; [by right|split; [intros H; discriminate H|]
                  |intros H; discriminate H|intros H; discriminate H];
      intros [(v' & [= <-] & Hv') _]; congruence].
  destruct (WFJSON_OPTIONAL_FIELD data "output_id" _ _) as [e1|] eqn:H1.
  { pose proof (optional_field_error _ _ _ _ _ H1) as He. simpl.
    split_and!; [by right| |intros ->; discriminate He|intros ->; discriminate He].
    split; [intros ->; discriminate He|]. intros (_ & Hb & _).
    first [discriminate Hb|apply bool_decide_eq_true in Hb; naive_solver]. }
  destruct (WFJSON_OPTIONAL_FIELD data "geometry" _ _) as [e2|] eqn:H2.
  { pose proof (optional_field_error _ _ _ _ _ H2) as He. simpl.
    split_and!; [by right| |intros ->; discriminate He|intros ->; discriminate He].
    split; [intros ->; discriminate He|]. intros (_ & Hb & _).
    first [discriminate Hb|apply bool_decide_eq_true in Hb; naive_solver]. }
  destruct (WFJSON_OPTIONAL_FIELD data "sticky" _ _) as [e3|] eqn:H3.
  { pose proof (optional_field_error _ _ _ _ _ H3) as He. simpl.
    split_and!; [by right| |intros ->; discriminate He|intros ->; discriminate He].
    split; [intros ->; discriminate He|]. intros (_ & Hb & _).
    first [discriminate Hb|apply bool_decide_eq_true in Hb; naive_solver]. }
  destruct (find_view_by_id _ d) as [view|] eqn:Hview; simpl;
    [|split_and!; [by right| |intros H; discriminate H|intros H; discriminate H];
      split; [intros H; discriminate H|]; by intros (_ & _ & ? & ? & ? & _)].
  destruct (toplevel_cast view) as [toplevel|] eqn:Htop; simpl;
    [|split_and!; [by right| |intros H; discriminate H|intros H; discriminate H];
      split; [intros H; discriminate H|];
      intros (_ & _ & view' & toplevel' & [= <-] & Ht' & _); congruence].
  unfold configure_output, configure_geometry, configure_sticky.
  destruct (contains data "output_id") eqn:Hco.
  - destruct (find_output_by_id _ d) as [wo|] eqn:Hwo; simpl.
    2:{ split_and!; [by right| |intros H; discriminate H|intros H; discriminate H].
        split; [intros H; discriminate H|].
        intros (_ & _ & view' & toplevel' & _ & _ & Ho & _).
        destruct (Ho eq_refl) as [? Hsome]. discriminate Hsome. }
    destruct (contains data "geometry") eqn:Hcg; simpl.
    + destruct (geometry_from_json _) as [g|] eqn:Hg; simpl.
      2:{ split_and!; [by right| |intros H; discriminate H|intros H; discriminate H].
          split; [intros H; discriminate H|].
          intros (_ & _ & view' & toplevel' & _ & _ & _ & Hgs).
          destruct (Hgs eq_refl) as [? Hsome]. discriminate Hsome. }
      split_and!; [by left| | |done].
      * split; [intros _|done]. split_and!; [by exists v|done|].
        exists view, toplevel. split_and!; [done|done|by eexists|by eexists].
      * intros _.
        exists view, toplevel, (move_view_to_output toplevel wo false d),
          (set_geometry toplevel g (move_view_to_output toplevel wo false d)).
        split_and!; try done; eauto.
    + split_and!; [by left| | |done].
      * split; [intros _|done]. split_and!; [by exists v|done|].
        exists view, toplevel. split_and!; [done|done|by eexists|done].
      * intros _.
        exists view, toplevel, (move_view_to_output toplevel wo true d),
          (move_view_to_output toplevel wo true d).
        split_and!; try done; eauto.
  - destruct (contains data "geometry") eqn:Hcg; simpl.
    + destruct (geometry_from_json _) as [g|] eqn:Hg; simpl.
      2:{ split_and!; [by right| |intros H; discriminate H|intros H; discriminate H].
          split; [intros H; discriminate H|].
          intros (_ & _ & view' & toplevel' & _ & _ & _ & Hgs).
          destruct (Hgs eq_refl) as [? Hsome]. discriminate Hsome. }
      split_and!; [by left| | |done].
      * split; [intros _|done]. split_and!; [by exists v|done|].
        exists view, toplevel. split_and!; [done|done|done|by eexists].
      * intros _. exists view, toplevel, d, (set_geometry toplevel g d).
        split_and!; try done; eauto.
    + split_and!; [by left| | |].
      * split; [intros _|done]. split_and!; [by exists v|done|].
        exists view, toplevel. by split_and!.
      * intros _. exists view, toplevel, d, d. by split_and!.
      * intros _ _ _ ->. done.
Qed.

End configure_view_success.

(** ** The further properties on sample runs *)

Lemma reachable_watched_mapped : reachable Sample.watched_mapped.
Proof. apply reachable_watch, reachable_initial. Defined.

Lemma reachable_watched_empty : reachable Sample.watched_empty.
Proof. apply reachable_watch, reachable_initial. Defined.

Lemma reachable_int_watched_mapped : reachable_int Sample.watched_mapped.
Proof.
  apply reachable_int_watch; [apply reachable_int_initial|].
  apply (bool_decide_unpack _). vm_compute. exact I.
Defined.

(** X1 on the client of the first sample run. *)
Lemma X1_disconnect_cleanup_witness :
  reachable Sample.watched_mapped ∧
  clients (on_client_disconnected Sample.alice Sample.watched_mapped) !! Sample.alice = None.
Proof.
  split; [exact reachable_watched_mapped|].
  exact (proj1 (X1_disconnect_cleanup Sample.watched_mapped Sample.alice
                  reachable_watched_mapped)).
Defined.

(** X2 on a first watch from the initial state. *)
Lemma X2_watch_then_disconnect_witness :
  reachable_int initial_state ∧
  counts_in_int (on_client_watch (events_of More.mixed_names) Sample.alice initial_state).2 ∧
  clients initial_state !! Sample.alice = None ∧
  signal_map (on_client_disconnected Sample.alice
                (on_client_watch (events_of More.mixed_names) Sample.alice initial_state).2)
    = signal_map initial_state.
Proof.
  assert (clients initial_state !! Sample.alice = None) as Hc by reflexivity.
  assert (counts_in_int
            (on_client_watch (events_of More.mixed_names) Sample.alice initial_state).2)
    as Hfit by (apply (bool_decide_unpack _); vm_compute; exact I).
  refine (conj reachable_int_initial (conj Hfit (conj Hc _))).
  exact (proj1 (X2_watch_then_disconnect_restores (events_of More.mixed_names) Sample.alice
                  initial_state reachable_int_initial Hfit Hc)).
Defined.

(** X3 for the name the first sample run watches. *)
Lemma X3_held_name_witness :
  reachable_int Sample.watched_mapped ∧
  clients Sample.watched_mapped !! Sample.alice = Some {["view-mapped"%string]} ∧
  catalog_name on_view_mapped ∈ ({["view-mapped"%string]} : gset string) ∧
  (scope_of on_view_mapped core_provider (get_outputs (core Sample.watched_mapped)) →
   attachments core_provider on_view_mapped (core Sample.watched_mapped) = 1%nat).
Proof.
  assert (clients Sample.watched_mapped !! Sample.alice = Some {["view-mapped"%string]})
    as Hc by (vm_compute; reflexivity).
  assert (catalog_name on_view_mapped ∈ ({["view-mapped"%string]} : gset string)) as Hin
    by (by apply elem_of_singleton).
  refine (conj reachable_int_watched_mapped (conj Hc (conj Hin _))).
  exact (proj1 (X3_held_name_is_attached Sample.watched_mapped Sample.alice _
                  on_view_mapped core_provider reachable_int_watched_mapped Hc Hin)).
Defined.

(** X5 on a list with a repeated and an unknown name. *)
Lemma X5_watch_stores_known_names_witness :
  reachable initial_state ∧
  json_get (events_of More.mixed_names) EVENTS = Some (JArray (JString <$> More.mixed_names)) ∧
  clients (on_client_watch (events_of More.mixed_names) Sample.alice initial_state).2
    !! Sample.alice = Some (list_to_set More.mixed_names ∩ dom signal_map_init).
Proof.
  assert (json_get (events_of More.mixed_names) EVENTS
          = Some (JArray (JString <$> More.mixed_names))) as Hget by reflexivity.
  refine (conj reachable_initial (conj Hget _)).
  exact (proj1 (proj2 (X5_watch_stores_known_names (events_of More.mixed_names) Sample.alice
                         initial_state More.mixed_names reachable_initial Hget))).
Defined.

Lemma unknown_names_unknown : ∀ n, n ∈ More.unknown_names → n ∉ dom signal_map_init.
Proof.
  intros n ->%list_elem_of_singleton [conn H]%catalog_complete. by destruct conn.
Defined.

(** X6 on a list with one unknown name. *)
Lemma X6_unknown_names_witness :
  reachable initial_state ∧
  json_get (events_of More.unknown_names) EVENTS
    = Some (JArray (JString <$> More.unknown_names)) ∧
  clients (on_client_watch (events_of More.unknown_names) Sample.alice initial_state).2
    !! Sample.alice = Some ∅.
Proof.
  assert (json_get (events_of More.unknown_names) EVENTS
          = Some (JArray (JString <$> More.unknown_names))) as Hget by reflexivity.
  refine (conj reachable_initial (conj Hget _)).
  exact (proj1 (proj2 (X6_unknown_names_subscribe_to_all (events_of More.unknown_names)
                         Sample.alice initial_state More.unknown_names reachable_initial
                         Hget unknown_names_unknown))).
Defined.

(** X7 after a watch with the empty list. *)
Lemma X7_output_events_witness :
  reachable Sample.watched_empty ∧
  (∀ c, c ∈ recipients "output-added" Sample.watched_empty ↔
        clients Sample.watched_empty !! c = Some ∅).
Proof.
  split; [exact reachable_watched_empty|].
  exact (proj1 (X7_output_events_reach_empty_sets Sample.watched_empty 0%nat JNull
                  reachable_watched_empty)).
Defined.

(** X8 for the connection the first sample run made live. *)
Lemma X8_emit_sends_once_witness :
  reachable_int Sample.watched_mapped ∧
  count_of Sample.watched_mapped (catalog_name on_view_mapped) = Some 1 ∧
  signal_map (emit core_provider on_view_mapped [] Sample.watched_mapped)
    = signal_map Sample.watched_mapped.
Proof.
  assert (count_of Sample.watched_mapped (catalog_name on_view_mapped) = Some 1) as Hk
    by (vm_compute; reflexivity).
  refine (conj reachable_int_watched_mapped (conj Hk _)).
  exact (proj1 (X8_emit_sends_once Sample.watched_mapped on_view_mapped core_provider [] 1
                  reachable_int_watched_mapped Hk)).
Defined.

(** X9 and X11 for the sample device, addressed by its handle. *)
Lemma X9_configure_known_device_witness :
  json_get (Sample.toggle (JUnsigned 4096)) "id" = Some (JUnsigned 4096) ∧
  json_get (Sample.toggle (JUnsigned 4096)) "enabled" = Some (JBool false) ∧
  0 ≤ 4096 < 2 ^ 63 ∧
  get_wlr_handle Sample.pointer = 4096 ∧
  Forall (λ x, get_wlr_handle x ≠ 4096) [] ∧
  configure_input_device (Sample.toggle (JUnsigned 4096)) ([] ++ Sample.pointer :: []) =
    (json_ok, [] ++ set_enabled false Sample.pointer :: []).
Proof.
  assert (0 ≤ 4096 < 2 ^ 63) as Hr by lia.
  refine (conj eq_refl (conj eq_refl (conj Hr (conj eq_refl (conj (Forall_nil_2 _) _))))).
  exact (X9_configure_known_device (Sample.toggle (JUnsigned 4096)) [] [] Sample.pointer
           4096 false eq_refl eq_refl Hr eq_refl (Forall_nil_2 _)).
Defined.

Lemma X11_listing_after_configure_witness :
  0 ≤ 4096 < 2 ^ 63 ∧
  list_input_devices More.deref More.nonull
    (configure_input_device (Sample.toggle (JUnsigned 4096)) ([] ++ Sample.pointer :: [])).2 =
  JArray ((device_json More.deref More.nonull <$> []) ++
          json_set (device_json More.deref More.nonull Sample.pointer) "enabled" (JBool false)
          :: (device_json More.deref More.nonull <$> [])).
Proof.
  assert (0 ≤ 4096 < 2 ^ 63) as Hr by lia.
  refine (conj Hr _).
  exact (proj1 (proj2 (proj2 (proj2
           (X11_listing_after_configure More.deref More.nonull
              (Sample.toggle (JUnsigned 4096)) [] [] Sample.pointer 4096 false
              eq_refl eq_refl Hr eq_refl (Forall_nil_2 _)))))).
Defined.

(** ** When a watch is answered ok *)

Lemma collect_events_Some_strings sm subs acc events :
  collect_events sm subs acc = Some events → ∃ names, subs = JString <$> names.
Proof.
  revert acc. induction subs as [|sub subs IH]; intros acc H; simpl in H.
  - by exists [].
  - destruct sub; try discriminate H. destruct (IH _ H) as [names ->].
    by exists (s :: names).
Qed.

(** X20 (when events/watch is answered ok): the answer is ok exactly when
    the [events] field is absent or is an array whose entries are all
    strings, whatever the strings are, and it is an error otherwise; a name
    that is not in the catalog is never a reason for an error. *)
Theorem X20_watch_ok_iff_strings (data : json) (c : client_interface_t) (s : ipc_rules_t) :
  let r := on_client_watch data c s in
  (r.1 = json_ok ∨ is_error r.1 = true) ∧
  (r.1 = json_ok ↔
   json_get data EVENTS = None ∨
   ∃ names, json_get data EVENTS = Some (JArray (JString <$> names))).
Proof.
  destruct (json_get data EVENTS) as [v|] eqn:Hget.
  - destruct v as [| | | | | |entries|];
      try (unfold on_client_watch, WFJSON_OPTIONAL_FIELD; rewrite Hget; simpl;
           split; [by right|]; split; [intros H; discriminate H|];
           intros [H|[names H]]; discriminate H).
    cbv zeta. rewrite (watch_array _ _ _ _ Hget).
    destruct (collect_events (signal_map s) entries ∅) as [events|] eqn:Hc; simpl.
    + split; [by left|]. split; [|done]. intros _. right.
      destruct (collect_events_Some_strings _ _ _ _ Hc) as [names ->]. by exists names.
    + split; [by right|]. split; [intros H; discriminate H|].
      intros [H|[names [= ->]]]; [discriminate H|].
      by rewrite collect_events_names in Hc.
  - cbv zeta. rewrite (watch_absent _ _ _ Hget). simpl. split; [by left|]. split; auto.
Qed.

(** X4 and X19 on the first sample run. *)
Lemma X4_attachments_follow_counts_witness :
  reachable_int Sample.watched_mapped ∧ NoDup (get_outputs (core Sample.watched_mapped)).
Proof.
  split; [exact reachable_int_watched_mapped|].
  exact (proj1 (proj2 (X4_attachments_follow_counts Sample.watched_mapped on_view_mapped
                         core_provider reachable_int_watched_mapped))).
Defined.

Lemma X19_watch_never_releases_witness :
  reachable_int Sample.watched_mapped ∧
  counts_in_int (on_client_watch (events_of ["view-tiled"%string]) Sample.alice
                   Sample.watched_mapped).2 ∧
  ∃ added,
    connections (core (on_client_watch (events_of ["view-tiled"%string]) Sample.alice
                         Sample.watched_mapped).2) =
    connections (core Sample.watched_mapped) ++ added.
Proof.
  assert (counts_in_int (on_client_watch (events_of ["view-tiled"%string]) Sample.alice
                           Sample.watched_mapped).2)
    as Hfit by (apply (bool_decide_unpack _); vm_compute; exact I).
  refine (conj reachable_int_watched_mapped (conj Hfit _)).
  exact (proj2 (X19_watch_never_releases (events_of ["view-tiled"%string]) Sample.alice
                  Sample.watched_mapped reachable_int_watched_mapped Hfit)).
Defined.

(** X18 on the sample desktop, for the request that carries only the id of
    its toplevel view. *)
Lemma X18_configure_view_ok_witness :
  Sample.configure_view Sample.only_id Sample.desk = (json_ok, Sample.desk).
Proof.
  exact (proj2 (proj2 (proj2 (proj2
           (X18_configure_view_ok_applies_in_order
              Sample.find_view_by_id Sample.toplevel_cast Sample.find_output_by_id
              Sample.geometry_from_json Sample.move_view_to_output Sample.set_geometry
              Sample.set_sticky Sample.only_id Sample.desk))))
           (JUnsigned 1) (1, true) 1 eq_refl eq_refl eq_refl eq_refl eq_refl eq_refl eq_refl).
Defined.
